(** * Mandelbrot escape-time engine: sequential and pthread variants

    A shallow embedding of [mandelbrot_seq.c] and [mandelbrot_pth.c].

    - C [int] values are integers of [Z]; every arithmetic operation the
      source performs on them is written with its 32-bit wrap-around.
    - C [double] values are the kernel's IEEE-754 binary64 floats.
    - The image buffer [UC **image_buffer] is a list of pixels, a pixel being
      the three bytes [image_buffer[i][0..2]].
    - A function that writes the buffer is embedded as the sequence of byte
      stores it performs; [exec] runs such a sequence on a buffer and fails on
      an index outside the allocated range.
    - Loops are written with an explicit amount of fuel, one unit per loop
      test, and return [None] when it runs out. *)

From Stdlib Require Import ZArith Lia Floats.
From stdpp Require Import list list_numbers strings pretty.

Open Scope Z_scope.

(** ** C integers *)

Definition INT_MAX : Z := 2147483647.

(** Reduction of an integer to the range of a 32-bit two's complement [int]. *)
Definition wrap (z : Z) : Z := (z + 2147483648) mod 4294967296 - 2147483648.

Definition int_add (a b : Z) : Z := wrap (a + b).
Definition int_sub (a b : Z) : Z := wrap (a - b).
Definition int_mul (a b : Z) : Z := wrap (a * b).

(** Conversion of an [int] to [unsigned char] (the macro [UC]). *)
Definition to_UC (v : Z) : Z := v mod 256.

(** Conversion of an [int] to [double]. *)
Definition float_of_int (z : Z) : float :=
  if z <? 0 then PrimFloat.opp (PrimFloat.of_uint63 (Uint63.of_Z (- z)))
  else PrimFloat.of_uint63 (Uint63.of_Z z).

(** ** The image buffer and the stores made to it *)

Inductive channel : Set := Ch0 | Ch1 | Ch2.

#[global] Instance channel_eq_dec : EqDecision channel.
Proof. solve_decision. Defined.

Definition pixel : Type := Z * Z * Z.

Definition set_channel (k : channel) (v : Z) (p : pixel) : pixel :=
  match p with
  | (p0, p1, p2) =>
      match k with
      | Ch0 => (v, p1, p2)
      | Ch1 => (p0, v, p2)
      | Ch2 => (p0, p1, v)
      end
  end.

Definition get_channel (k : channel) (p : pixel) : Z :=
  match p with
  | (p0, p1, p2) => match k with Ch0 => p0 | Ch1 => p1 | Ch2 => p2 end
  end.

(** [image_buffer[st_index][st_channel] = st_value]. *)
Record store : Set := Store { st_index : Z; st_channel : channel; st_value : Z }.

#[global] Instance store_eq_dec : EqDecision store.
Proof. solve_decision. Defined.

(** The byte a store is aimed at. *)
Definition target (s : store) : Z * channel := (st_index s, st_channel s).

Definition exec_store (s : store) (buf : list pixel) : option (list pixel) :=
  if decide (0 ≤ st_index s < Z.of_nat (length buf)) then
    Some (alter (set_channel (st_channel s) (st_value s)) (Z.to_nat (st_index s)) buf)
  else None.

Fixpoint exec (tr : list store) (buf : list pixel) : option (list pixel) :=
  match tr with
  | [] => Some buf
  | s :: tr' => buf' ← exec_store s buf; exec tr' buf'
  end.

(** The bytes [write_to_file] emits after the header: each pixel's three
    bytes in index order, which the P6 format reads as red, green, blue. *)
Definition write_to_file_body (buf : list pixel) : list Z :=
  buf ≫= (λ p, [get_channel Ch0 p; get_channel Ch1 p; get_channel Ch2 p]).

(** ** Global variables *)

(** The globals both programs declare and [init] assigns. [iteration_max]
    and [PLOT_IMAGE] are never assigned and are constants here; the pthread
    program's [NUM_THREADS] is passed beside the record. *)
Record globals : Set := Globals {
  c_x_min : float;
  c_x_max : float;
  c_y_min : float;
  c_y_max : float;
  pixel_width : float;
  pixel_height : float;
  GLOBAL_SCHEME : Z;
  image_size : Z;
  i_x_max : Z;
  i_y_max : Z;
  image_buffer_size : Z
}.

Definition iteration_max : Z := 0xFFF.
Definition PLOT_IMAGE : Z := 0.
Definition NUM_THREADS_default : Z := 4.
Definition escape_radius_squared : float := 4%float.

(** The assignments at the end of [init], after the arguments are scanned. *)
Definition configure (x_min x_max y_min y_max : float) (size scheme : Z) : globals :=
  let i_x_max := size in
  let i_y_max := size in
  {| c_x_min := x_min; c_x_max := x_max; c_y_min := y_min; c_y_max := y_max;
     pixel_width := (x_max - x_min) / float_of_int i_x_max;
     pixel_height := (y_max - y_min) / float_of_int i_y_max;
     GLOBAL_SCHEME := scheme;
     image_size := size;
     i_x_max := i_x_max;
     i_y_max := i_y_max;
     image_buffer_size := int_mul size size |}.

(** ** [update_rgb_buffer] (the same text in both programs) *)

Definition update_rgb_buffer (g : globals) (iteration x y color_sch : Z) : list store :=
  let first_color := Z.shiftr (Z.land iteration 0xF00) 8 in
  let second_color := Z.shiftr (Z.land iteration 0x0F0) 4 in
  let third_color := Z.land iteration 0x00F in
  let '(first_color, second_color, third_color) :=
    if iteration >=? iteration_max then (0, 0, 0)
    else (int_mul 17 first_color, int_mul 17 second_color, int_mul 17 third_color) in
  let idx := int_add (int_mul (i_y_max g) y) x in
  if color_sch =? 0 then
    [Store idx Ch0 (to_UC third_color);
     Store idx Ch1 (to_UC second_color);
     Store idx Ch2 (to_UC first_color)]
  else if color_sch =? 1 then
    [Store idx Ch0 (to_UC second_color);
     Store idx Ch1 (to_UC first_color);
     Store idx Ch2 (to_UC third_color)]
  else if color_sch =? 2 then
    [Store idx Ch0 (to_UC first_color);
     Store idx Ch1 (to_UC third_color);
     Store idx Ch2 (to_UC second_color)]
  else if color_sch =? 3 then
    [Store idx Ch0 (to_UC first_color);
     Store idx Ch1 (to_UC second_color);
     Store idx Ch2 (to_UC third_color)]
  else if color_sch =? 4 then
    [Store idx Ch0 (to_UC third_color);
     Store idx Ch1 (to_UC first_color);
     Store idx Ch2 (to_UC second_color)]
  else
    [Store idx Ch0 (to_UC second_color);
     Store idx Ch1 (to_UC third_color);
     Store idx Ch2 (to_UC first_color)].

(** The pixel found at slot [i_y_max * y + x] once the stores of
    [update_rgb_buffer] are done on [buf]. *)
Definition pixel_after_update (g : globals) (iteration x y color_sch : Z)
    (buf : list pixel) : option pixel :=
  buf' ← exec (update_rgb_buffer g iteration x y color_sch) buf;
  buf' !! Z.to_nat (i_y_max g * y + x).

(** ** Loops *)

(** [for (i = start; i < bound; i = next i) body]: what the bodies produce
    (their stores), in order. *)
Fixpoint for_lt {A : Type} (fuel : nat) (i bound : Z) (next : Z → Z)
    (body : Z → option (list A)) : option (list A) :=
  match fuel with
  | O => None
  | S fuel' =>
      if i <? bound then
        tr ← body i;
        rest ← for_lt fuel' (next i) bound next body;
        Some (tr ++ rest)
      else Some []
  end.

(** The innermost loop: the escape-time iteration for the point
    [(c_x, c_y)], entered with the current values of the loop variables. *)
Fixpoint escape_loop (fuel : nat) (c_x c_y : float) (iteration : Z)
    (z_x z_y z_x_squared z_y_squared : float) : option Z :=
  match fuel with
  | O => None
  | S fuel' =>
      if (iteration <? iteration_max)
         && (z_x_squared + z_y_squared <? escape_radius_squared)%float then
        let z_y := (2 * z_x * z_y + c_y)%float in
        let z_x := (z_x_squared - z_y_squared + c_x)%float in
        let z_x_squared := (z_x * z_x)%float in
        let z_y_squared := (z_y * z_y)%float in
        escape_loop fuel' c_x c_y (int_add iteration 1) z_x z_y z_x_squared z_y_squared
      else Some iteration
  end.

(** The iteration count of one plane point: the loop entered with
    [iteration = 0] and [z_x = z_y = z_x_squared = z_y_squared = 0.0]. *)
Definition escape_time (fuel : nat) (c_x c_y : float) : option Z :=
  escape_loop fuel c_x c_y 0 0%float 0%float 0%float 0%float.

(** The plane coordinates of a row and of a column, as the loops compute
    them. *)
Definition row_c_y (g : globals) (i_y : Z) : float :=
  let c_y := (c_y_min g + float_of_int i_y * pixel_height g)%float in
  if (PrimFloat.abs c_y <? pixel_height g / 2)%float then 0%float else c_y.

Definition column_c_x (g : globals) (i_x : Z) : float :=
  (c_x_min g + float_of_int i_x * pixel_width g)%float.

(** The body of the loop over [i_x]. *)
Definition pixel_body (fuel : nat) (g : globals) (c_y : float) (i_y i_x : Z) :
    option (list store) :=
  let c_x := column_c_x g i_x in
  iteration ← escape_time fuel c_x c_y;
  Some (update_rgb_buffer g iteration i_x i_y (GLOBAL_SCHEME g)).

(** The body of the loop over [i_y] (the same text in [compute_mandelbrot]
    and in [iterate_y]). *)
Definition row_body (fuel : nat) (g : globals) (i_y : Z) : option (list store) :=
  let c_y := row_c_y g i_y in
  for_lt fuel 0 (i_x_max g) (λ i_x, int_add i_x 1) (pixel_body fuel g c_y i_y).

(** ** Process behaviour *)

(** What a run is observed to do: a line printed on the standard output, an
    allocation made for the image buffer, a store to the image buffer. *)
Inductive event : Set :=
  | EvPrintf (s : string)
  | EvMalloc (bytes : Z)
  | EvStore (s : store).

Inductive result (A : Type) : Type :=
  | Return (a : A)
  | Exited (status : Z)
  | Crashed
  | OutOfFuel.
Arguments Return {A} a.
Arguments Exited {A} status.
Arguments Crashed {A}.
Arguments OutOfFuel {A}.

(** A computation: the events it performs and how it ends. *)
Definition M (A : Type) : Type := list event * result A.

Definition M_ret {A} (a : A) : M A := ([], Return a).

Definition M_bind {A B} (m : M A) (k : A → M B) : M B :=
  match m with
  | (tr, Return a) => let '(tr', r) := k a in (tr ++ tr', r)
  | (tr, Exited s) => (tr, Exited s)
  | (tr, Crashed) => (tr, Crashed)
  | (tr, OutOfFuel) => (tr, OutOfFuel)
  end.

Notation "x <-- m ;; k" := (M_bind m (λ x, k))
  (at level 100, m at next level, right associativity).

(** Consecutive calls of [printf], one per string; [exit(status)]. *)
Definition printf (lines : list string) : M unit := (EvPrintf <$> lines, Return tt).
Definition exit {A} (status : Z) : M A := ([], Exited status).

(** [argv[k]]; reading past the arguments is a fault. *)
Definition argv_at (argv : list string) (k : nat) : M string :=
  match argv !! k with
  | Some s => M_ret s
  | None => ([], Crashed)
  end.

(** The stores of a loop nest as events. *)
Definition stores (tr : option (list store)) : M unit :=
  match tr with
  | Some tr => (EvStore <$> tr, Return tt)
  | None => ([], OutOfFuel)
  end.

Definition nl : string := String (Ascii.ascii_of_nat 10) EmptyString.
Definition sizeof_pointer : Z := 8.

(** [allocate_image_buffer]: one array of [image_buffer_size] pointers and
    one 3-byte array per slot. *)
Definition allocate_image_buffer (g : globals) : M unit :=
  let rgb_size := 3 in
  (EvMalloc (sizeof_pointer * image_buffer_size g)
     :: replicate (Z.to_nat (image_buffer_size g)) (EvMalloc rgb_size),
   Return tt).

Definition is_malloc (e : event) : bool :=
  match e with EvMalloc _ => true | _ => false end.

Definition is_store (e : event) : bool :=
  match e with EvStore _ => true | _ => false end.

(** A run in which the image buffer is neither allocated nor written. *)
Definition buffer_untouched (tr : list event) : Prop :=
  Forall (λ e, is_malloc e = false ∧ is_store e = false) tr.

(** The zero-initialised globals a C program starts with, [GLOBAL_SCHEME]
    having its initialiser 0. *)
Definition globals_at_start : globals :=
  {| c_x_min := 0; c_x_max := 0; c_y_min := 0; c_y_max := 0;
     pixel_width := 0; pixel_height := 0;
     GLOBAL_SCHEME := 0; image_size := 0; i_x_max := 0; i_y_max := 0;
     image_buffer_size := 0 |}.

(** ** The sequential program, [mandelbrot_seq.c] *)

Module Seq.

Definition usage : list string :=
  [ "usage:" +:+ nl +:+ "./mandelbrot_seq c_x_min c_x_max c_y_min c_y_max image_size color_scheme(optional default=0)" +:+ nl;
    "examples with image_size = 11500:" +:+ nl;
    "    Full Picture:         ./mandelbrot_seq -2.5 1.5 -2.0 2.0 11500 0" +:+ nl;
    "    Seahorse Valley:      ./mandelbrot_seq -0.8 -0.7 0.05 0.15 11500 3" +:+ nl;
    "    Elephant Valley:      ./mandelbrot_seq 0.175 0.375 -0.1 0.1 11500 5" +:+ nl;
    "    Triple Spiral Valley: ./mandelbrot_seq -0.188 -0.012 0.554 0.754 11500" +:+ nl ].

Definition compute_mandelbrot (fuel : nat) (g : globals) : option (list store) :=
  for_lt fuel 0 (i_y_max g) (λ i_y, int_add i_y 1) (row_body fuel g).

(** The buffer [compute_mandelbrot] leaves, started on [buf]. *)
Definition run (fuel : nat) (g : globals) (buf : list pixel) : option (list pixel) :=
  tr ← compute_mandelbrot fuel g; exec tr buf.

Section Scanning.

(** [sscanf(s, "%lf", &x)] and [sscanf(s, "%d", &n)]: the value scanned, or
    [None] when nothing is converted and the variable keeps its value. *)
Variable sscanf_lf : string → option float.
Variable sscanf_d : string → option Z.

Definition init (argc : Z) (argv : list string) : M globals :=
  if argc <? 6 then
    _ <-- printf usage ;;
    exit 0
  else
    a1 <-- argv_at argv 1 ;;
    a2 <-- argv_at argv 2 ;;
    a3 <-- argv_at argv 3 ;;
    a4 <-- argv_at argv 4 ;;
    a5 <-- argv_at argv 5 ;;
    let x_min := default (c_x_min globals_at_start) (sscanf_lf a1) in
    let x_max := default (c_x_max globals_at_start) (sscanf_lf a2) in
    let y_min := default (c_y_min globals_at_start) (sscanf_lf a3) in
    let y_max := default (c_y_max globals_at_start) (sscanf_lf a4) in
    let size := default (image_size globals_at_start) (sscanf_d a5) in
    scheme <-- (if argc =? 7 then
                  a6 <-- argv_at argv 6 ;;
                  M_ret (default (GLOBAL_SCHEME globals_at_start) (sscanf_d a6))
                else M_ret (GLOBAL_SCHEME globals_at_start)) ;;
    M_ret (configure x_min x_max y_min y_max size scheme).

(** [main]; [PLOT_IMAGE] being 0, [write_to_file] is not called. *)
Definition main (fuel : nat) (argc : Z) (argv : list string) : M Z :=
  g <-- init argc argv ;;
  _ <-- allocate_image_buffer g ;;
  _ <-- stores (compute_mandelbrot fuel g) ;;
  M_ret 0.

End Scanning.

End Seq.

(** ** The pthread program, [mandelbrot_pth.c] *)

(** The schedules of threads that each perform its own sequence of steps:
    every merge of the sequences that keeps each one's order. *)
Inductive interleave {A : Type} : list (list A) → list A → Prop :=
  | interleave_done (ts : list (list A)) :
      Forall (λ t, t = []) ts → interleave ts []
  | interleave_step (ts1 ts2 : list (list A)) (a : A) (t s : list A) :
      interleave (ts1 ++ t :: ts2) s →
      interleave (ts1 ++ (a :: t) :: ts2) (a :: s).

Module Pth.

Definition usage : list string :=
  [ "usage:" +:+ nl +:+ "./mandelbrot_pth c_x_min c_x_max c_y_min c_y_max image_size color_scheme(optional default=0) ..." +:+ nl;
    "examples with image_size = 11500:" +:+ nl;
    "    Full Picture:         ./mandelbrot_pth -2.5 1.5 -2.0 2.0 11500 0" +:+ nl;
    "    Seahorse Valley:      ./mandelbrot_pth -0.8 -0.7 0.05 0.15 11500 3" +:+ nl;
    "    Elephant Valley:      ./mandelbrot_pth 0.175 0.375 -0.1 0.1 11500 5 -nt 12" +:+ nl;
    "    Triple Spiral Valley: ./mandelbrot_pth -0.188 -0.012 0.554 0.754 11500 -nt 8" +:+ nl ].

(** The thread function, called with the thread number [nt]: the stores the
    thread performs. *)
Definition iterate_y (fuel : nat) (g : globals) (NUM_THREADS : Z) (nt : Z) :
    option (list store) :=
  let st := nt in
  for_lt fuel (int_sub st 1) (i_y_max g) (λ i_y, int_add i_y NUM_THREADS)
    (row_body fuel g).

(** The rows the loop of [iterate_y] goes through: the same loop with a
    body that only records [i_y]. *)
Definition iterate_y_rows (fuel : nat) (g : globals) (NUM_THREADS : Z) (nt : Z) :
    option (list Z) :=
  let st := nt in
  for_lt fuel (int_sub st 1) (i_y_max g) (λ i_y, int_add i_y NUM_THREADS)
    (λ i_y, Some [i_y]).

(** The threads [main] creates, [i = 1 .. NUM_THREADS], each with its
    sequence of stores. *)
Definition thread_ids (NUM_THREADS : Z) : list Z := seqZ 1 NUM_THREADS.

Definition threads (fuel : nat) (g : globals) (NUM_THREADS : Z) :
    option (list (list store)) :=
  mapM (iterate_y fuel g NUM_THREADS) (thread_ids NUM_THREADS).

(** A buffer the joined threads can leave, started on [buf]: the result of
    running some schedule of their stores. *)
Inductive run (fuel : nat) (g : globals) (NUM_THREADS : Z) (buf : list pixel) :
    list pixel → Prop :=
  | run_schedule (trs : list (list store)) (sched : list store) (buf' : list pixel) :
      threads fuel g NUM_THREADS = Some trs →
      interleave trs sched →
      exec sched buf = Some buf' →
      run fuel g NUM_THREADS buf buf'.

Section Scanning.

Variable sscanf_lf : string → option float.
Variable sscanf_d : string → option Z.

Definition init (argc : Z) (argv : list string) : M (globals * Z) :=
  if argc <? 6 then
    _ <-- printf usage ;;
    exit 0
  else
    a1 <-- argv_at argv 1 ;;
    a2 <-- argv_at argv 2 ;;
    a3 <-- argv_at argv 3 ;;
    a4 <-- argv_at argv 4 ;;
    a5 <-- argv_at argv 5 ;;
    let x_min := default (c_x_min globals_at_start) (sscanf_lf a1) in
    let x_max := default (c_x_max globals_at_start) (sscanf_lf a2) in
    let y_min := default (c_y_min globals_at_start) (sscanf_lf a3) in
    let y_max := default (c_y_max globals_at_start) (sscanf_lf a4) in
    let size := default (image_size globals_at_start) (sscanf_d a5) in
    sn <-- (
      if argc >=? 7 then
        a6 <-- argv_at argv 6 ;;
        if String.eqb a6 "-nt" then
          a7 <-- argv_at argv 7 ;;
          M_ret (GLOBAL_SCHEME globals_at_start,
                 default NUM_THREADS_default (sscanf_d a7))
        else
          let scheme := default (GLOBAL_SCHEME globals_at_start) (sscanf_d a6) in
          if argc >? 7 then
            a7 <-- argv_at argv 7 ;;
            if String.eqb a7 "-nt" then
              a8 <-- argv_at argv 8 ;;
              M_ret (scheme, default NUM_THREADS_default (sscanf_d a8))
            else M_ret (scheme, NUM_THREADS_default)
          else M_ret (scheme, NUM_THREADS_default)
      else M_ret (GLOBAL_SCHEME globals_at_start, NUM_THREADS_default)) ;;
    let '(scheme, NUM_THREADS) := sn in
    M_ret (configure x_min x_max y_min y_max size scheme, NUM_THREADS).

(** The behaviours of [main]: [init], the buffer allocation, then the
    threads' stores in some schedule. The allocation of the thread arguments
    and the creation of the threads are taken to succeed; [PLOT_IMAGE] being
    0, [write_to_file] is not called. *)
Inductive main (fuel : nat) (argc : Z) (argv : list string) : M Z → Prop :=
  | main_exited (tr : list event) (status : Z) :
      init argc argv = (tr, Exited status) →
      main fuel argc argv (tr, Exited status)
  | main_crashed (tr : list event) :
      init argc argv = (tr, Crashed) →
      main fuel argc argv (tr, Crashed)
  | main_out_of_fuel (tr : list event) (g : globals) (NUM_THREADS : Z) :
      init argc argv = (tr, Return (g, NUM_THREADS)) →
      threads fuel g NUM_THREADS = None →
      main fuel argc argv (tr ++ (allocate_image_buffer g).1, OutOfFuel)
  | main_joined (tr : list event) (g : globals) (NUM_THREADS : Z)
      (trs : list (list store)) (sched : list store) :
      init argc argv = (tr, Return (g, NUM_THREADS)) →
      threads fuel g NUM_THREADS = Some trs →
      interleave trs sched →
      main fuel argc argv
        (tr ++ (allocate_image_buffer g).1 ++ (EvStore <$> sched), Return 0).

End Scanning.

End Pth.

(** ** The colour mapper as the specification words it *)

(** The three base channel values [(a, b, c)] of an iteration count. *)
Definition spec_base_channels (n : Z) : Z * Z * Z :=
  (Z.land (Z.shiftr n 8) 0xF * 17,
   Z.land (Z.shiftr n 4) 0xF * 17,
   Z.land n 0xF * 17).

(** The specification's table: the [(R, G, B)] triple of a scheme. *)
Definition spec_permutation (s : Z) (abc : Z * Z * Z) : Z * Z * Z :=
  let '(a, b, c) := abc in
  if s =? 0 then (a, b, c)
  else if s =? 1 then (b, a, c)
  else if s =? 2 then (a, c, b)
  else if s =? 3 then (a, b, c)
  else if s =? 4 then (c, a, b)
  else (b, c, a).

(** The table with the row of scheme 0 as the code has it. *)
Definition stored_permutation (s : Z) (abc : Z * Z * Z) : Z * Z * Z :=
  let '(a, b, c) := abc in
  if s =? 0 then (c, b, a)
  else if s =? 1 then (b, a, c)
  else if s =? 2 then (a, c, b)
  else if s =? 3 then (a, b, c)
  else if s =? 4 then (c, a, b)
  else (b, c, a).

(** Two readings of a pixel's bytes as [(R, G, B)]: the order in which
    [write_to_file] emits them, and the order the comment in
    [update_rgb_buffer] names ([0] blue, [1] green, [2] red). *)
Definition rgb_in_file_order (p : pixel) : Z * Z * Z := p.

Definition rgb_in_comment_order (p : pixel) : Z * Z * Z :=
  match p with (p0, p1, p2) => (p2, p1, p0) end.

(** The colour values [update_rgb_buffer] works with once the test against
    [iteration_max] is done: [(first_color, second_color, third_color)]. *)
Definition colors (n : Z) : Z * Z * Z :=
  if n >=? iteration_max then (0, 0, 0) else spec_base_channels n.

(** ** The escape-time evaluator as the specification words it *)

(** The loop state: [z = zx + zy i] with [zx²] and [zy²] kept beside it. *)
Definition orbit_state : Type := float * float * float * float.

Definition orbit_start : orbit_state := (0%float, 0%float, 0%float, 0%float).

(** One application of [z ← z² + c]: [zy_new = 2*zx*zy + cy] from the old
    [zx], [zx_new = zx² - zy² + cx] from the tracked squares, then the
    squares of the new components. *)
Definition spec_step (c_x c_y : float) (p : orbit_state) : orbit_state :=
  let '(zx, zy, zx2, zy2) := p in
  let zy_new := (2 * zx * zy + c_y)%float in
  let zx_new := (zx2 - zy2 + c_x)%float in
  (zx_new, zy_new, (zx_new * zx_new)%float, (zy_new * zy_new)%float).

(** [z] after [k] iterations. *)
Definition spec_orbit (c_x c_y : float) (k : nat) : orbit_state :=
  Nat.iter k (spec_step c_x c_y) orbit_start.

(** [zx² + zy²]. *)
Definition norm_squared (p : orbit_state) : float :=
  let '(_, _, zx2, zy2) := p in (zx2 + zy2)%float.

(** The test the iteration continues on: [zx² + zy² < 4]. *)
Definition inside (p : orbit_state) : bool := (norm_squared p <? 4)%float.

(** The slot of pixel [(x, y)] lies in the buffer and its index needs no
    wrap-around. *)
Definition in_buffer (g : globals) (x y : Z) (buf : list pixel) : Prop :=
  0 ≤ x ≤ INT_MAX ∧
  0 ≤ i_y_max g * y + x < Z.of_nat (length buf) ∧
  Z.of_nat (length buf) ≤ INT_MAX.

(** A one-pixel image, for examples. *)
Definition unit_image : globals := configure 0 1 0 1 1 0.
Definition unit_buffer : list pixel := [(7, 7, 7)].

(** ** Closed forms of the loops *)

(** The values of [i] in [for (i = start; i < bound; i += step)]:
    [start, start + step, start + 2 step, ...] below [bound]. *)
Definition stride (start bound step : Z) : list Z :=
  (λ k, start + k * step) <$> seqZ 0 ((bound - start + step - 1) `div` step).

(** The count the evaluator returns for a point (4096 loop tests always
    suffice, see [escape_time_spec]). *)
Definition iteration_count (c_x c_y : float) : Z :=
  default 0 (escape_time 4096 c_x c_y).

(** The stores made for pixel [(i_x, i_y)], and for the row [i_y]. *)
Definition pixel_stores (g : globals) (i_y i_x : Z) : list store :=
  update_rgb_buffer g (iteration_count (column_c_x g i_x) (row_c_y g i_y))
    i_x i_y (GLOBAL_SCHEME g).

Definition row_stores (g : globals) (i_y : Z) : list store :=
  seqZ 0 (i_x_max g) ≫= pixel_stores g i_y.

(** An image of side [size]: what [init] leaves in [i_x_max] and
    [i_y_max], with [size * size] slots counted without overflow. *)
Definition square_image (g : globals) (size : Z) : Prop :=
  i_x_max g = size ∧ i_y_max g = size ∧ 0 ≤ size ∧ size * size ≤ INT_MAX.

(** How many stores of a sequence go to byte [k] of slot [i]. *)
Definition writes_to (i : Z) (k : channel) (tr : list store) : nat :=
  length (filter (λ s, target s = (i, k)) tr).

(** The bytes of the slots of row [i_y] in an image of side [size]. *)
Definition row_targets (size i_y : Z) : list (Z * channel) :=
  seqZ 0 size ≫= (λ i_x, [(size * i_y + i_x, Ch0);
                          (size * i_y + i_x, Ch1);
                          (size * i_y + i_x, Ch2)]).

(** The full picture at 4 by 4 pixels, and a buffer for it. *)
Definition small_image : globals := configure (-2.5) 1.5 (-2) 2 4 0.
Definition small_buffer : list pixel := replicate 16 (7, 7, 7).

(** ** [write_to_file] *)

(** The digits [%d] prints. *)
Definition print_d (n : Z) : string := pretty n.

(** The three bytes [fwrite(image_buffer[i], 1, 3, file)] emits; reading a
    slot that was never allocated is a fault. *)
Definition fwrite_slot (buf : list pixel) (i : Z) : option (list Z) :=
  p ← buf !! Z.to_nat i;
  Some [get_channel Ch0 p; get_channel Ch1 p; get_channel Ch2 p].

(** The file [write_to_file] leaves: the header [fprintf] formats from
    ["P6\n %s\n %d\n %d\n %d\n"], then the bytes of the slots
    [0 .. image_buffer_size - 1]. Opening the file is taken to succeed. *)
Definition write_to_file (fuel : nat) (g : globals) (buf : list pixel) :
    option (string * list Z) :=
  let comment := "# " in
  let max_color_component_value := 255 in
  let header :=
    "P6" +:+ nl +:+ " " +:+ comment +:+ nl
         +:+ " " +:+ print_d (i_x_max g) +:+ nl
         +:+ " " +:+ print_d (i_y_max g) +:+ nl
         +:+ " " +:+ print_d max_color_component_value +:+ nl in
  body ← for_lt fuel 0 (image_buffer_size g) (λ i, int_add i 1) (fwrite_slot buf);
  Some (header, body).

(** ** The picture a run leaves *)

(** The pixel of [(i_x, i_y)]: the bytes [[0], [1], [2]] its slot is given. *)
Definition pixel_color (g : globals) (i_y i_x : Z) : pixel :=
  stored_permutation
    (if decide (0 ≤ GLOBAL_SCHEME g ≤ 4) then GLOBAL_SCHEME g else 5)
    (colors (iteration_count (column_c_x g i_x) (row_c_y g i_y))).

(** All pixels, row after row. *)
Definition image (g : globals) : list pixel :=
  seqZ 0 (i_y_max g) ≫= (λ i_y, pixel_color g i_y <$> seqZ 0 (i_x_max g)).

(** ** The benchmark script *)

Definition ITERATIONS : Z := 10.
Definition INITIAL_SIZE : Z := 16.
Definition MAX_THREADS : Z := 33.

(** The argument vectors of the four programs runs the script makes for one
    program, image size and value of its counter [i]: full picture, seahorse,
    elephant and triple spiral. *)
Definition benchmark_commands (NAME : string) (SIZE i : Z) : list (list string) :=
  [ ["./" +:+ NAME; "-2.5"; "1.5"; "-2.0"; "2.0"; print_d SIZE; print_d i];
    ["./" +:+ NAME; "-0.8"; "-0.7"; "0.05"; "0.15"; print_d SIZE; print_d i];
    ["./" +:+ NAME; "0.175"; "0.375"; "-0.1"; "0.1"; print_d SIZE; print_d i];
    ["./" +:+ NAME; "-0.188"; "-0.012"; "0.554"; "0.754"; print_d SIZE; print_d i] ].

(** All argument vectors the script runs a program with: [j] from 1 to
    [ITERATIONS] with [SIZE] doubled after each, [i] from 1 to [MAX_THREADS],
    the sequential program being skipped for [i > 1]. *)
Definition benchmark_runs (NAME : string) : list (list string) :=
  seqZ 1 ITERATIONS ≫= λ j,
  seqZ 1 MAX_THREADS ≫= λ i,
  if decide (NAME = "mandelbrot_seq" ∧ 1 < i) then []
  else benchmark_commands NAME (INITIAL_SIZE * 2 ^ (j - 1)) i.

(** * Properties *)

(** Case analysis on a scheme selector: one goal per value in [0..5] (those
    that contradict a hypothesis on the selector are closed), and the last
    branch of the cascade for a selector outside [0..4]. *)
Ltac scheme_cases s :=
  let H := fresh in
  assert (s = 0 ∨ s = 1 ∨ s = 2 ∨ s = 3 ∨ s = 4 ∨ s = 5) as H by lia;
  destruct H as [->|[->|[->|[->|[->| ->]]]]]; try lia.

Ltac scheme_other s :=
  destruct (s =? 0) eqn:?; [lia|]; destruct (s =? 1) eqn:?; [lia|];
  destruct (s =? 2) eqn:?; [lia|]; destruct (s =? 3) eqn:?; [lia|];
  destruct (s =? 4) eqn:?; [lia|].

(** ** Integer arithmetic *)

Lemma wrap_id (z : Z) : -2147483648 ≤ z ≤ INT_MAX → wrap z = z.
Proof.
  unfold wrap, INT_MAX. intros Hz.
  rewrite Z.mod_small by lia. lia.
Qed.

Lemma int_add_id (a b : Z) : -2147483648 ≤ a + b ≤ INT_MAX → int_add a b = a + b.
Proof. apply wrap_id. Qed.

Lemma int_mul_id (a b : Z) : -2147483648 ≤ a * b ≤ INT_MAX → int_mul a b = a * b.
Proof. apply wrap_id. Qed.

Lemma int_sub_id (a b : Z) : -2147483648 ≤ a - b ≤ INT_MAX → int_sub a b = a - b.
Proof. apply wrap_id. Qed.

Lemma nibble_range (n : Z) : 0 ≤ Z.land n 0xF ≤ 15.
Proof.
  change 0xF with (Z.ones 4). rewrite Z.land_ones by lia.
  change (2 ^ 4) with 16. change (Z.ones 4) with 15.
  pose proof (Z.mod_pos_bound n 16). lia.
Qed.

Lemma first_color_nibble (n : Z) :
  Z.shiftr (Z.land n 0xF00) 8 = Z.land (Z.shiftr n 8) 0xF.
Proof. rewrite Z.shiftr_land. reflexivity. Qed.

Lemma second_color_nibble (n : Z) :
  Z.shiftr (Z.land n 0x0F0) 4 = Z.land (Z.shiftr n 4) 0xF.
Proof. rewrite Z.shiftr_land. reflexivity. Qed.

Lemma scaled_nibble (d : Z) : 0 ≤ d ≤ 15 → to_UC (int_mul 17 d) = d * 17.
Proof.
  intros Hd. rewrite int_mul_id by (unfold INT_MAX; lia).
  unfold to_UC. rewrite Z.mod_small by lia. lia.
Qed.

Lemma slot_index (g : globals) (x y : Z) (buf : list pixel) :
  in_buffer g x y buf → int_add (int_mul (i_y_max g) y) x = i_y_max g * y + x.
Proof.
  unfold in_buffer, INT_MAX. intros (Hx & Hi & Hl).
  rewrite int_mul_id by (unfold INT_MAX; lia).
  apply int_add_id. unfold INT_MAX. lia.
Qed.

(** ** Stores *)

Lemma exec_app (tr1 tr2 : list store) (buf : list pixel) :
  exec (tr1 ++ tr2) buf = exec tr1 buf ≫= exec tr2.
Proof.
  revert buf. induction tr1 as [|s tr1 IH]; intros buf; simpl; [done|].
  destruct (exec_store s buf) as [buf'|]; simpl; [apply IH | done].
Qed.

Lemma exec_store_length (s : store) (buf buf' : list pixel) :
  exec_store s buf = Some buf' → length buf' = length buf.
Proof.
  unfold exec_store. case_decide; [|done].
  intros [= <-]. apply length_alter.
Qed.

Lemma exec_length (tr : list store) (buf buf' : list pixel) :
  exec tr buf = Some buf' → length buf' = length buf.
Proof.
  revert buf. induction tr as [|s tr IH]; intros buf; simpl.
  - by intros [= <-].
  - destruct (exec_store s buf) as [b|] eqn:E; simpl; [|done].
    intros H. rewrite (IH _ H). eapply exec_store_length, E.
Qed.

(** The three stores of one pixel set its slot to the three values. *)
Lemma exec_pixel (i v0 v1 v2 : Z) (buf : list pixel) :
  0 ≤ i < Z.of_nat (length buf) →
  exec [Store i Ch0 v0; Store i Ch1 v1; Store i Ch2 v2] buf
  = Some (<[Z.to_nat i := (v0, v1, v2)]> buf).
Proof.
  intros Hi. simpl. unfold exec_store; simpl.
  rewrite decide_True by done. simpl.
  rewrite length_alter, decide_True by done. simpl.
  rewrite !length_alter, decide_True by done. simpl.
  f_equal. rewrite !list_alter_alter_eq.
  apply list_eq. intros j.
  destruct (decide (Z.to_nat i = j)) as [<-|Hne].
  - rewrite list_lookup_alter_eq, list_lookup_insert_eq by lia.
    destruct (lookup_lt_is_Some_2 buf (Z.to_nat i)) as [[[p0 p1] p2] Hp]; [lia|].
    by rewrite Hp.
  - by rewrite list_lookup_alter_ne, list_lookup_insert_ne.
Qed.

(** What [update_rgb_buffer] stores, as one triple of bytes in the order
    [[0], [1], [2]]. *)
Lemma update_rgb_buffer_stores (g : globals) (n x y s : Z) :
  ∃ v0 v1 v2,
    (v0, v1, v2) = stored_permutation (if decide (0 ≤ s ≤ 4) then s else 5) (colors n) ∧
    update_rgb_buffer g n x y s =
      [Store (int_add (int_mul (i_y_max g) y) x) Ch0 v0;
       Store (int_add (int_mul (i_y_max g) y) x) Ch1 v1;
       Store (int_add (int_mul (i_y_max g) y) x) Ch2 v2].
Proof.
  unfold update_rgb_buffer, colors, spec_base_channels.
  rewrite first_color_nibble, second_color_nibble.
  pose proof (nibble_range (Z.shiftr n 8)) as H8.
  pose proof (nibble_range (Z.shiftr n 4)) as H4.
  pose proof (nibble_range n) as H0.
  destruct (n >=? iteration_max) eqn:En.
  - change (to_UC 0) with 0.
    case_decide as Hs.
    + scheme_cases s; simpl; eauto.
    + scheme_other s. simpl. eauto.
  - rewrite !scaled_nibble by done.
    case_decide as Hs.
    + scheme_cases s; simpl; eauto.
    + scheme_other s. simpl. eauto.
Qed.

Lemma pixel_after_update_value (g : globals) (n x y s : Z) (buf : list pixel) :
  in_buffer g x y buf →
  pixel_after_update g n x y s buf
  = Some (stored_permutation (if decide (0 ≤ s ≤ 4) then s else 5) (colors n)).
Proof.
  intros Hb. unfold pixel_after_update.
  destruct (update_rgb_buffer_stores g n x y s) as (v0 & v1 & v2 & Hv & ->).
  rewrite (slot_index g x y buf Hb).
  destruct Hb as (_ & Hi & _).
  rewrite exec_pixel by done. simpl.
  rewrite list_lookup_insert_eq by lia. by rewrite Hv.
Qed.

Lemma colors_below_max (n : Z) : n < iteration_max → colors n = spec_base_channels n.
Proof.
  intros Hn. unfold colors.
  destruct (n >=? iteration_max) eqn:E; [lia|done].
Qed.

Lemma colors_at_max (n : Z) : iteration_max ≤ n → colors n = (0, 0, 0).
Proof.
  intros Hn. unfold colors.
  destruct (n >=? iteration_max) eqn:E; [done|]. lia.
Qed.

Lemma in_buffer_unit : in_buffer unit_image 0 0 unit_buffer.
Proof. unfold in_buffer, INT_MAX. simpl. lia. Qed.

(** [write_to_file] emits a pixel's bytes in the order [[0], [1], [2]]: the
    first is the red byte of the P6 image. *)
Lemma write_to_file_body_order (p : pixel) :
  write_to_file_body [p] = let '(r, g, b) := rgb_in_file_order p in [r; g; b].
Proof. by destruct p as [[p0 p1] p2]. Qed.

(** ** The colour mapper *)

(** C3, as amended. For an iteration count [0 <= n < 4095] and a scheme in
    [0..5], [update_rgb_buffer] stores at the pixel's slot, in the byte order
    [[0], [1], [2]] that the image file reads as (R, G, B), the permutation of
    [(a, b, c)] that the table gives for the schemes 1 to 5, and [(c, b, a)]
    for scheme 0. *)
Theorem update_rgb_buffer_table (g : globals) (n x y s : Z) (buf : list pixel) :
  0 ≤ n < 4095 → 0 ≤ s ≤ 5 → in_buffer g x y buf →
  rgb_in_file_order <$> pixel_after_update g n x y s buf
  = Some (if decide (s = 0)
          then (let '(a, b, c) := spec_base_channels n in (c, b, a))
          else spec_permutation s (spec_base_channels n)).
Proof.
  intros Hn Hs Hb. rewrite pixel_after_update_value by done.
  rewrite colors_below_max by (change iteration_max with 4095; lia).
  simpl. f_equal. unfold rgb_in_file_order.
  destruct (spec_base_channels n) as [[a b] c].
  scheme_cases s; reflexivity.
Qed.

Lemma update_rgb_buffer_table_witness :
  rgb_in_file_order <$> pixel_after_update unit_image 0x123 0 0 0 unit_buffer
  = Some (if decide (0 = 0)
          then (let '(a, b, c) := spec_base_channels 0x123 in (c, b, a))
          else spec_permutation 0 (spec_base_channels 0x123)).
Proof.
  apply (update_rgb_buffer_table unit_image 0x123 0 0 0 unit_buffer);
    [lia | lia | exact in_buffer_unit].
Defined.

(** C3, as stated, fails: the table's row for scheme 0 is not what is
    stored when the bytes are read in file order (iteration count 1 gives
    (17, 0, 0), the table says (0, 0, 17)); and when the bytes are read in
    the order of the source comment, the row for scheme 3 fails instead. *)
Lemma update_rgb_buffer_table_scheme0 :
  ¬ (∀ n s, 0 ≤ n < 4095 → 0 ≤ s ≤ 5 →
       rgb_in_file_order <$> pixel_after_update unit_image n 0 0 s unit_buffer
       = Some (spec_permutation s (spec_base_channels n)))
  ∧
  ¬ (∀ n s, 0 ≤ n < 4095 → 0 ≤ s ≤ 5 →
       rgb_in_comment_order <$> pixel_after_update unit_image n 0 0 s unit_buffer
       = Some (spec_permutation s (spec_base_channels n))).
Proof.
  split; intros H.
  - specialize (H 1 0 ltac:(lia) ltac:(lia)). vm_compute in H. discriminate H.
  - specialize (H 1 3 ltac:(lia) ltac:(lia)). vm_compute in H. discriminate H.
Qed.

(** C4, as amended. For every iteration count and pixel, scheme 0 stores
    [(third, second, first)] and scheme 3 stores [(first, second, third)]:
    each is the other reversed, and the two agree exactly when
    [first_color = third_color]. *)
Theorem scheme0_reverses_scheme3 (g : globals) (n x y : Z) (buf : list pixel) :
  in_buffer g x y buf →
  ∃ a b c,
    colors n = (a, b, c) ∧
    pixel_after_update g n x y 0 buf = Some (c, b, a) ∧
    pixel_after_update g n x y 3 buf = Some (a, b, c) ∧
    (pixel_after_update g n x y 0 buf = pixel_after_update g n x y 3 buf ↔ a = c).
Proof.
  intros Hb.
  rewrite !pixel_after_update_value by done. simpl.
  destruct (colors n) as [[a b] c]. exists a, b, c.
  repeat split; try done.
  - by intros [= ->].
  - by intros ->.
Qed.

Lemma scheme0_reverses_scheme3_witness :
  ∃ a b c,
    colors 1 = (a, b, c) ∧
    pixel_after_update unit_image 1 0 0 0 unit_buffer = Some (c, b, a) ∧
    pixel_after_update unit_image 1 0 0 3 unit_buffer = Some (a, b, c) ∧
    (pixel_after_update unit_image 1 0 0 0 unit_buffer
     = pixel_after_update unit_image 1 0 0 3 unit_buffer ↔ a = c).
Proof. exact (scheme0_reverses_scheme3 unit_image 1 0 0 unit_buffer in_buffer_unit). Defined.

(** C4, as stated, fails: at iteration count 1, scheme 0 stores (17, 0, 0)
    and scheme 3 stores (0, 0, 17). *)
Lemma scheme0_differs_from_scheme3 :
  pixel_after_update unit_image 1 0 0 0 unit_buffer = Some (17, 0, 0) ∧
  pixel_after_update unit_image 1 0 0 3 unit_buffer = Some (0, 0, 17) ∧
  update_rgb_buffer unit_image 1 0 0 0 ≠ update_rgb_buffer unit_image 1 0 0 3.
Proof. repeat split. vm_compute. discriminate. Qed.

(** C5. For every iteration count [n >= iteration_max = 4095] and every
    scheme, [update_rgb_buffer] stores 0 in each of the three bytes of the
    pixel's slot, which then holds (0, 0, 0). *)
Theorem update_rgb_buffer_black (g : globals) (n x y s : Z) :
  4095 ≤ n →
  update_rgb_buffer g n x y s =
    [Store (int_add (int_mul (i_y_max g) y) x) Ch0 0;
     Store (int_add (int_mul (i_y_max g) y) x) Ch1 0;
     Store (int_add (int_mul (i_y_max g) y) x) Ch2 0]
  ∧ ∀ buf, in_buffer g x y buf →
      pixel_after_update g n x y s buf = Some (0, 0, 0).
Proof.
  intros Hn.
  assert (colors n = (0, 0, 0)) as Hc by (by apply colors_at_max).
  split.
  - destruct (update_rgb_buffer_stores g n x y s) as (v0 & v1 & v2 & Hv & ->).
    rewrite Hc in Hv.
    assert ((v0, v1, v2) = (0, 0, 0)) as [= -> -> ->]; [|done].
    rewrite Hv. case_decide as Hs; [|done].
    scheme_cases s; reflexivity.
  - intros buf Hb. rewrite pixel_after_update_value, Hc by done. f_equal.
    case_decide as Hs; [|done].
    scheme_cases s; reflexivity.
Qed.

Lemma update_rgb_buffer_black_witness :
  update_rgb_buffer unit_image 0xFFF 0 0 2 =
    [Store (int_add (int_mul (i_y_max unit_image) 0) 0) Ch0 0;
     Store (int_add (int_mul (i_y_max unit_image) 0) 0) Ch1 0;
     Store (int_add (int_mul (i_y_max unit_image) 0) 0) Ch2 0]
  ∧ ∀ buf, in_buffer unit_image 0 0 buf →
      pixel_after_update unit_image 0xFFF 0 0 2 buf = Some (0, 0, 0).
Proof. apply (update_rgb_buffer_black unit_image 0xFFF 0 0 2). lia. Defined.

(** C10. A scheme selector outside 0..4, in or out of the documented range
    0..5, makes [update_rgb_buffer] perform exactly the stores of scheme 5,
    so the slot holds the same triple. *)
Theorem update_rgb_buffer_default_scheme (g : globals) (n x y s : Z) :
  ¬ (0 ≤ s ≤ 4) →
  update_rgb_buffer g n x y s = update_rgb_buffer g n x y 5
  ∧ ∀ buf, pixel_after_update g n x y s buf = pixel_after_update g n x y 5 buf.
Proof.
  intros Hs.
  assert (update_rgb_buffer g n x y s = update_rgb_buffer g n x y 5) as H.
  { unfold update_rgb_buffer. scheme_other s. reflexivity. }
  split; [done|]. intros buf. unfold pixel_after_update. by rewrite H.
Qed.

Lemma update_rgb_buffer_default_scheme_witness :
  (update_rgb_buffer unit_image 7 0 0 6 = update_rgb_buffer unit_image 7 0 0 5
   ∧ ∀ buf, pixel_after_update unit_image 7 0 0 6 buf
            = pixel_after_update unit_image 7 0 0 5 buf)
  ∧
  (update_rgb_buffer unit_image 7 0 0 (-1) = update_rgb_buffer unit_image 7 0 0 5
   ∧ ∀ buf, pixel_after_update unit_image 7 0 0 (-1) buf
            = pixel_after_update unit_image 7 0 0 5 buf).
Proof.
  split.
  - apply (update_rgb_buffer_default_scheme unit_image 7 0 0 6). lia.
  - apply (update_rgb_buffer_default_scheme unit_image 7 0 0 (-1)). lia.
Defined.

(** ** The escape-time loop *)

Lemma escape_loop_more_fuel (fuel fuel' : nat) (c_x c_y : float) (it : Z)
    (z_x z_y z_x2 z_y2 : float) (n : Z) :
  escape_loop fuel c_x c_y it z_x z_y z_x2 z_y2 = Some n →
  (fuel ≤ fuel')%nat →
  escape_loop fuel' c_x c_y it z_x z_y z_x2 z_y2 = Some n.
Proof.
  revert fuel' it z_x z_y z_x2 z_y2.
  induction fuel as [|fuel IH]; intros fuel' it z_x z_y z_x2 z_y2; simpl; [done|].
  intros H Hle. destruct fuel' as [|fuel']; [lia|]. simpl.
  destruct ((it <? iteration_max) && (z_x2 + z_y2 <? escape_radius_squared)%float);
    [|done].
  apply IH; [done | lia].
Qed.

(** The loop entered at iteration [it] in state [p] runs [n] more
    iterations, where [n] is the least number of steps after which the state
    fails the test, cut at [iteration_max]. *)
Lemma escape_loop_spec (c_x c_y : float) (fuel it : nat) (p : orbit_state) :
  (it ≤ 4095)%nat → (4095 - it < fuel)%nat →
  ∃ n : nat,
    (let '(z_x, z_y, z_x2, z_y2) := p in
     escape_loop fuel c_x c_y (Z.of_nat it) z_x z_y z_x2 z_y2)
    = Some (Z.of_nat (it + n)) ∧
    (it + n ≤ 4095)%nat ∧
    (∀ k, (k < n)%nat → inside (Nat.iter k (spec_step c_x c_y) p) = true) ∧
    ((it + n < 4095)%nat → inside (Nat.iter n (spec_step c_x c_y) p) = false).
Proof.
  revert it p. induction fuel as [|fuel IH]; intros it p Hit Hfuel; [lia|].
  destruct p as [[[z_x z_y] z_x2] z_y2]. simpl escape_loop.
  destruct (Z.of_nat it <? iteration_max) eqn:Elt; simpl andb.
  - destruct (z_x2 + z_y2 <? escape_radius_squared)%float eqn:Ein.
    + assert (it < 4095)%nat as Hlt by (change iteration_max with 4095 in Elt; lia).
      destruct (IH (S it) (spec_step c_x c_y (z_x, z_y, z_x2, z_y2)))
        as (n & Hrun & Hle & Hin & Hout); [lia | lia |].
      exists (S n). simpl in Hrun.
      rewrite int_add_id by (unfold INT_MAX; lia).
      replace (Z.of_nat it + 1) with (Z.of_nat (S it)) by lia.
      rewrite Hrun. split; [f_equal; lia|]. split; [lia|]. split.
      * intros [|k] Hk; [exact Ein|].
        rewrite Nat.iter_succ_r. apply Hin. lia.
      * intros Hn. rewrite Nat.iter_succ_r. apply Hout. lia.
    + exists O. rewrite Nat.add_0_r. split; [done|]. split; [lia|].
      split; [intros k Hk; lia|]. intros _. exact Ein.
  - exists O. rewrite Nat.add_0_r. split; [done|]. split; [lia|].
    split; [intros k Hk; lia|]. change iteration_max with 4095 in Elt. lia.
Qed.

(** With fuel for 4096 loop tests the evaluator returns. *)
Lemma escape_time_spec (c_x c_y : float) (fuel : nat) :
  (4095 < fuel)%nat →
  ∃ n : nat,
    escape_time fuel c_x c_y = Some (Z.of_nat n) ∧
    (n ≤ 4095)%nat ∧
    (∀ k, (k < n)%nat → inside (spec_orbit c_x c_y k) = true) ∧
    ((n < 4095)%nat → inside (spec_orbit c_x c_y n) = false).
Proof.
  intros Hfuel.
  destruct (escape_loop_spec c_x c_y fuel 0 orbit_start) as (n & H); [lia | lia |].
  exists n. exact H.
Qed.

Lemma escape_time_more_fuel (fuel fuel' : nat) (c_x c_y : float) (n : Z) :
  escape_time fuel c_x c_y = Some n → (fuel ≤ fuel')%nat →
  escape_time fuel' c_x c_y = Some n.
Proof. apply escape_loop_more_fuel. Qed.

(** Whatever the fuel, a count that is returned is at least 1 and at most
    [iteration_max]. *)
Lemma escape_time_range (fuel : nat) (c_x c_y : float) (n : Z) :
  escape_time fuel c_x c_y = Some n → 1 ≤ n ≤ iteration_max.
Proof.
  intros H.
  destruct (escape_time_spec c_x c_y (fuel + 4096)) as (m & Hm & Hle & Hin & Hout);
    [lia|].
  rewrite (escape_time_more_fuel fuel (fuel + 4096) c_x c_y n H) in Hm by lia.
  injection Hm as ->. change iteration_max with 4095. split; [|lia].
  destruct m as [|m]; [|lia].
  specialize (Hout ltac:(lia)). vm_compute in Hout. discriminate Hout.
Qed.

(** A sum that is not below 4 is at least 4, unless it is not a number. *)
Lemma not_below_4 (x : float) :
  (x <? 4)%float = false → PrimFloat.is_nan x = false → (4 <=? x)%float = true.
Proof.
  unfold PrimFloat.is_nan.
  rewrite ltb_spec, leb_spec, FloatAxioms.eqb_spec.
  unfold SFltb, SFleb, SFeqb.
  replace (Prim2SF 4) with (S754_finite false 4503599627370496 (-50))
    by (vm_compute; reflexivity).
  generalize 4503599627370496%positive (-50). intros m4 e4.
  destruct (Prim2SF x) as [[|]|[|]| |[|] m e]; unfold SFcompare;
    try discriminate; try reflexivity.
  intros H _. rewrite (Z.compare_antisym e e4).
  pose proof (Pos.compare_cont_antisym m m4 Eq) as Ha.
  change (CompOpp Eq) with Eq in Ha. rewrite <- Ha.
  destruct (e ?= e4); try discriminate; try reflexivity.
  destruct (PosDef.Pos.compare_cont Eq m m4); try discriminate; reflexivity.
Qed.

(** C7. The evaluator started from [z = 0] applies [z ← z² + c] (the
    imaginary part first, from the old real part, the squares tracked)
    while fewer than [iteration_max = 4095] iterations are done and
    [zx² + zy² < 4], and returns the number [n] of iterations done: the test
    held before each of them, and when [n < 4095] it fails after the [n]-th,
    which for a sum that is a number means [zx² + zy² >= 4]. The point (0, 0)
    returns 4095 and the point (2, 2) returns 1. *)
Theorem escape_time_characterised (c_x c_y : float) (fuel : nat) :
  (4095 < fuel)%nat →
  (∃ n : nat,
     escape_time fuel c_x c_y = Some (Z.of_nat n) ∧
     Z.of_nat n ≤ iteration_max ∧
     (∀ k, (k < n)%nat → inside (spec_orbit c_x c_y k) = true) ∧
     (Z.of_nat n < iteration_max →
        inside (spec_orbit c_x c_y n) = false ∧
        (PrimFloat.is_nan (norm_squared (spec_orbit c_x c_y n)) = false →
         (4 <=? norm_squared (spec_orbit c_x c_y n))%float = true)))
  ∧ escape_time fuel 0 0 = Some iteration_max
  ∧ escape_time fuel 2 2 = Some 1.
Proof.
  intros Hfuel. split; [|split].
  - destruct (escape_time_spec c_x c_y fuel Hfuel) as (n & Hn & Hle & Hin & Hout).
    exists n. change iteration_max with 4095.
    split; [done|]. split; [lia|]. split; [done|].
    intros Hlt. assert (inside (spec_orbit c_x c_y n) = false) as Hst
      by (apply Hout; lia).
    split; [done|]. intros Hnan. by apply not_below_4.
  - apply (escape_time_more_fuel 4096); [vm_compute; reflexivity | lia].
  - apply (escape_time_more_fuel 4096); [vm_compute; reflexivity | lia].
Qed.

Lemma escape_time_characterised_witness :
  (∃ n : nat,
     escape_time 4096 0.5 0.5 = Some (Z.of_nat n) ∧
     Z.of_nat n ≤ iteration_max ∧
     (∀ k, (k < n)%nat → inside (spec_orbit 0.5 0.5 k) = true) ∧
     (Z.of_nat n < iteration_max →
        inside (spec_orbit 0.5 0.5 n) = false ∧
        (PrimFloat.is_nan (norm_squared (spec_orbit 0.5 0.5 n)) = false →
         (4 <=? norm_squared (spec_orbit 0.5 0.5 n))%float = true)))
  ∧ escape_time 4096 0 0 = Some iteration_max
  ∧ escape_time 4096 2 2 = Some 1.
Proof. apply (escape_time_characterised 0.5 0.5 4096). lia. Defined.

(** C9. For every plane point the evaluator returns (given fuel for its at
    most 4096 loop tests) a count between 1 and [iteration_max]; 0 is never
    returned, whatever the fuel: the test [zx² + zy² < 4] holds at the start,
    where [z = 0]. *)
Theorem escape_time_at_least_one (c_x c_y : float) (fuel : nat) :
  (4095 < fuel)%nat →
  (∃ n, escape_time fuel c_x c_y = Some n ∧ 1 ≤ n ≤ iteration_max)
  ∧ (∀ fuel', escape_time fuel' c_x c_y ≠ Some 0)
  ∧ inside (spec_orbit c_x c_y 0) = true.
Proof.
  intros Hfuel. split; [|split].
  - destruct (escape_time_spec c_x c_y fuel Hfuel) as (n & Hn & _).
    exists (Z.of_nat n). split; [done|]. by apply (escape_time_range fuel c_x c_y).
  - intros fuel' H. apply escape_time_range in H. lia.
  - vm_compute. reflexivity.
Qed.

Lemma escape_time_at_least_one_witness :
  (∃ n, escape_time 4096 2 2 = Some n ∧ 1 ≤ n ≤ iteration_max)
  ∧ (∀ fuel', escape_time fuel' 2 2 ≠ Some 0)
  ∧ inside (spec_orbit 2 2 0) = true.
Proof. apply (escape_time_at_least_one 2 2 4096). lia. Defined.

(** ** The loops over rows and columns *)

Lemma stride_nil (start bound step : Z) :
  1 ≤ step → bound ≤ start → stride start bound step = [].
Proof.
  intros Hs Hb. unfold stride.
  assert ((bound - start + step - 1) `div` step ≤ 0) as Hd.
  { apply Z.lt_succ_r. apply Z.div_lt_upper_bound; lia. }
  destruct ((bound - start + step - 1) `div` step) as [|q|q]; try lia; done.
Qed.

Lemma stride_cons (start bound step : Z) :
  1 ≤ step → start < bound →
  stride start bound step = start :: stride (start + step) bound step.
Proof.
  intros Hs Hb. unfold stride.
  replace (bound - start + step - 1) with ((bound - (start + step) + step - 1) + 1 * step)
    by lia.
  rewrite Z.div_add by lia.
  set (q := (bound - (start + step) + step - 1) `div` step).
  assert (0 ≤ q).
  { apply Z.div_pos; lia. }
  rewrite seqZ_cons by lia. rewrite fmap_cons. f_equal; [lia|].
  replace (Z.pred (q + 1)) with q by lia.
  change (Z.succ 0) with (1 + 0). rewrite <- fmap_add_seqZ, <- list_fmap_compose.
  apply list_fmap_ext. intros _ k _. simpl. lia.
Qed.

Lemma elem_of_stride (start bound step y : Z) :
  1 ≤ step →
  y ∈ stride start bound step ↔
  start ≤ y < bound ∧ ∃ k, 0 ≤ k ∧ y = start + k * step.
Proof.
  intros Hs. unfold stride. rewrite list_elem_of_fmap. split.
  - intros (k & -> & Hk). apply elem_of_seqZ in Hk.
    assert (k * step < bound - start); [|split; [nia | exists k; lia]].
    assert (k + 1 ≤ (bound - start + step - 1) `div` step) as Hq by lia.
    apply (Z.mul_le_mono_nonneg_r _ _ step) in Hq; [|lia].
    pose proof (Z.mul_div_le (bound - start + step - 1) step). lia.
  - intros ([H1 H2] & k & Hk & ->). exists k. split; [done|].
    apply elem_of_seqZ. split; [lia|].
    assert (k + 1 ≤ (bound - start + step - 1) `div` step); [|lia].
    apply Z.div_le_lower_bound; lia.
Qed.

Lemma NoDup_stride (start bound step : Z) : 1 ≤ step → NoDup (stride start bound step).
Proof.
  intros Hs. unfold stride. apply NoDup_fmap_2_strong; [|apply NoDup_seqZ].
  intros k1 k2 _ _ H. nia.
Qed.

Lemma stride_unit (bound : Z) : stride 0 bound 1 = seqZ 0 bound.
Proof.
  unfold stride. replace ((bound - 0 + 1 - 1) `div` 1) with bound
    by (rewrite Z.div_1_r; lia).
  rewrite <- (list_fmap_id (seqZ 0 bound)) at 2.
  apply list_fmap_ext. intros _ k _. simpl. lia.
Qed.

(** The values a loop with step [T] goes through, in closed form. The
    conditions say that [i += T] does not overflow. *)
Lemma for_lt_stride (fuel : nat) (i bound T : Z) :
  1 ≤ T → -2147483648 ≤ i → bound + T ≤ INT_MAX + 1 →
  (Z.to_nat (bound - i) < fuel)%nat →
  for_lt fuel i bound (λ i, int_add i T) (λ i, Some [i]) = Some (stride i bound T).
Proof.
  intros HT. revert i. induction fuel as [|fuel IH]; intros i Hlo Hb Hfuel; [lia|].
  simpl. destruct (i <? bound) eqn:E.
  - rewrite int_add_id by lia.
    rewrite IH by lia. simpl. by rewrite <- stride_cons by lia.
  - by rewrite stride_nil by lia.
Qed.

(** A loop whose bodies return produces what they produce, over the values
    its header goes through. *)
Lemma for_lt_rows {A} (fuel : nat) (i bound : Z) (next : Z → Z)
    (body : Z → option (list A)) (f : Z → list A) (rs : list Z) :
  for_lt fuel i bound next (λ i, Some [i]) = Some rs →
  (∀ y, y ∈ rs → body y = Some (f y)) →
  for_lt fuel i bound next body = Some (rs ≫= f).
Proof.
  revert i rs. induction fuel as [|fuel IH]; intros i rs; simpl; [done|].
  destruct (i <? bound).
  - destruct (for_lt fuel (next i) bound next (λ i, Some [i])) as [rest|] eqn:E;
      simpl; [|done].
    intros [= <-] Hbody.
    rewrite (Hbody i) by apply list_elem_of_here. simpl.
    rewrite (IH _ rest E) by (intros y Hy; apply Hbody; by apply list_elem_of_further).
    done.
  - intros [= <-] _. done.
Qed.

Lemma iteration_count_spec (fuel : nat) (c_x c_y : float) :
  (4095 < fuel)%nat → escape_time fuel c_x c_y = Some (iteration_count c_x c_y).
Proof.
  intros Hfuel. unfold iteration_count.
  destruct (escape_time_spec c_x c_y 4096) as (n & Hn & _); [lia|].
  rewrite Hn. change (default 0 (Some (Z.of_nat n))) with (Z.of_nat n).
  apply (escape_time_more_fuel 4096); [exact Hn | lia].
Qed.

(** From here on the count is used through [iteration_count_spec] only. *)
#[global] Opaque iteration_count.

Lemma pixel_body_stores (fuel : nat) (g : globals) (i_y i_x : Z) :
  (4095 < fuel)%nat →
  pixel_body fuel g (row_c_y g i_y) i_y i_x = Some (pixel_stores g i_y i_x).
Proof.
  intros Hfuel. unfold pixel_body.
  rewrite (iteration_count_spec fuel _ _ Hfuel). reflexivity.
Qed.

Lemma row_body_stores (fuel : nat) (g : globals) (i_y : Z) :
  (4095 < fuel)%nat → i_x_max g ≤ INT_MAX → (Z.to_nat (i_x_max g) < fuel)%nat →
  row_body fuel g i_y = Some (row_stores g i_y).
Proof.
  intros Hfuel Hmax Hx. unfold row_body, row_stores.
  rewrite <- stride_unit. apply for_lt_rows.
  - apply for_lt_stride; lia.
  - intros x _. by apply pixel_body_stores.
Qed.

(** [compute_mandelbrot] goes through the rows [0, 1, ..., i_y_max - 1]. *)
Lemma compute_mandelbrot_stores (fuel : nat) (g : globals) :
  (4095 < fuel)%nat → i_x_max g ≤ INT_MAX → i_y_max g ≤ INT_MAX →
  (Z.to_nat (i_x_max g) < fuel)%nat → (Z.to_nat (i_y_max g) < fuel)%nat →
  Seq.compute_mandelbrot fuel g = Some (seqZ 0 (i_y_max g) ≫= row_stores g).
Proof.
  intros Hfuel Hxm Hym Hx Hy. unfold Seq.compute_mandelbrot.
  rewrite <- stride_unit. apply for_lt_rows.
  - apply for_lt_stride; lia.
  - intros y _. by apply row_body_stores.
Qed.

(** Thread [t] goes through the rows [t - 1, t - 1 + T, ...]. *)
Lemma iterate_y_rows_stride (fuel : nat) (g : globals) (T t : Z) :
  1 ≤ T → 1 ≤ t ≤ T → 0 ≤ i_y_max g → i_y_max g + T ≤ INT_MAX + 1 →
  (Z.to_nat (i_y_max g) < fuel)%nat →
  Pth.iterate_y_rows fuel g T t = Some (stride (t - 1) (i_y_max g) T).
Proof.
  intros HT Ht Hp Hb Hfuel. unfold Pth.iterate_y_rows.
  rewrite int_sub_id by (unfold INT_MAX in *; lia). apply for_lt_stride; lia.
Qed.

Lemma iterate_y_stores (fuel : nat) (g : globals) (T t : Z) :
  1 ≤ T → 1 ≤ t ≤ T → 0 ≤ i_y_max g → i_y_max g + T ≤ INT_MAX + 1 →
  (4095 < fuel)%nat → i_x_max g ≤ INT_MAX →
  (Z.to_nat (i_x_max g) < fuel)%nat → (Z.to_nat (i_y_max g) < fuel)%nat →
  Pth.iterate_y fuel g T t = Some (stride (t - 1) (i_y_max g) T ≫= row_stores g).
Proof.
  intros HT Ht Hp Hb Hfuel Hxm Hx Hy. unfold Pth.iterate_y.
  apply for_lt_rows.
  - by apply iterate_y_rows_stride.
  - intros y _. by apply row_body_stores.
Qed.

(** ** Lists *)

Lemma fmap_bind_list {A B C} (f : B → C) (g : A → list B) (l : list A) :
  f <$> (l ≫= g) = l ≫= (λ x, f <$> g x).
Proof.
  induction l as [|x l IH]; [done|].
  rewrite !bind_cons, fmap_app. by f_equal.
Qed.

Lemma bind_bind_list {A B C} (f : A → list B) (g : B → list C) (l : list A) :
  (l ≫= f) ≫= g = l ≫= (λ x, f x ≫= g).
Proof.
  induction l as [|x l IH]; [done|].
  rewrite !bind_cons, bind_app. by f_equal.
Qed.

Lemma bind_ext_in {A B} (f g : A → list B) (l : list A) :
  (∀ x, x ∈ l → f x = g x) → l ≫= f = l ≫= g.
Proof.
  intros H. apply Forall_bind_ext. by apply Forall_forall.
Qed.

Lemma concat_fmap_bind {A B} (f : A → list B) (l : list A) :
  concat (f <$> l) = l ≫= f.
Proof.
  induction l as [|x l IH]; [done|].
  rewrite fmap_cons, bind_cons. simpl. by f_equal.
Qed.

(** ** The partition of the rows among the threads *)

Lemma elem_of_stripe (size T t y : Z) :
  1 ≤ T → 1 ≤ t ≤ T →
  y ∈ stride (t - 1) size T ↔ 0 ≤ y < size ∧ y `mod` T = t - 1.
Proof.
  intros HT Ht. rewrite elem_of_stride by done. split.
  - intros ([H1 H2] & k & Hk & ->). split; [lia|].
    rewrite Z.mod_add by lia. apply Z.mod_small. lia.
  - intros ([H1 H2] & Hm).
    pose proof (Z.div_mod y T ltac:(lia)) as Hy.
    pose proof (Z.div_pos y T ltac:(lia) ltac:(lia)).
    split; [lia|]. exists (y `div` T). split; [done|]. lia.
Qed.

Lemma elem_of_thread_ids (T t : Z) : t ∈ Pth.thread_ids T ↔ 1 ≤ t ≤ T.
Proof. unfold Pth.thread_ids. rewrite elem_of_seqZ. lia. Qed.

(** The rows of the threads [1 .. T], one after the other, are the rows
    [0 .. size - 1], each once. *)
Lemma stripes_partition (size T : Z) :
  1 ≤ T →
  Pth.thread_ids T ≫= (λ t, stride (t - 1) size T) ≡ₚ seqZ 0 size.
Proof.
  intros HT. apply NoDup_Permutation.
  - apply NoDup_bind.
    + intros t1 t2 y H1 H2 Hy1 Hy2.
      apply elem_of_thread_ids in H1, H2.
      apply elem_of_stripe in Hy1, Hy2; try done. lia.
    + intros t _. by apply NoDup_stride.
    + apply NoDup_seqZ.
  - apply NoDup_seqZ.
  - intros y. rewrite list_elem_of_bind, elem_of_seqZ. split.
    + intros (t & Hy & Ht). apply elem_of_thread_ids in Ht.
      apply elem_of_stripe in Hy; try done. lia.
    + intros Hy. exists (y `mod` T + 1).
      pose proof (Z.mod_pos_bound y T ltac:(lia)).
      rewrite elem_of_thread_ids, elem_of_stripe by lia. lia.
Qed.

(** ** The bytes the stores go to *)

Lemma square_image_configure (x_min x_max y_min y_max : float) (size scheme : Z) :
  0 ≤ size → size * size ≤ INT_MAX →
  square_image (configure x_min x_max y_min y_max size scheme) size.
Proof. intros H1 H2. by repeat split. Qed.

Lemma pixel_targets (g : globals) (size i_y i_x : Z) :
  square_image g size → 0 ≤ i_y < size → 0 ≤ i_x < size →
  target <$> pixel_stores g i_y i_x =
    [(size * i_y + i_x, Ch0); (size * i_y + i_x, Ch1); (size * i_y + i_x, Ch2)].
Proof.
  intros (Hx & Hy & H0 & Hsq) Hiy Hix. unfold pixel_stores.
  destruct (update_rgb_buffer_stores g
              (iteration_count (column_c_x g i_x) (row_c_y g i_y))
              i_x i_y (GLOBAL_SCHEME g)) as (v0 & v1 & v2 & _ & ->).
  rewrite Hy.
  assert (0 ≤ size * i_y ∧ size * i_y + i_x < size * size) as [H1 H2] by nia.
  rewrite int_mul_id by (unfold INT_MAX in *; lia).
  rewrite int_add_id by (unfold INT_MAX in *; lia).
  reflexivity.
Qed.

Lemma row_stores_targets (g : globals) (size i_y : Z) :
  square_image g size → 0 ≤ i_y < size →
  target <$> row_stores g i_y = row_targets size i_y.
Proof.
  intros Hg Hiy. unfold row_stores, row_targets.
  rewrite fmap_bind_list. destruct Hg as (Hx & Hg). rewrite Hx.
  apply bind_ext_in. intros i_x Hix. apply elem_of_seqZ in Hix.
  apply pixel_targets; [by split | done | lia].
Qed.

Lemma rows_stores_targets (g : globals) (size : Z) (rs : list Z) :
  square_image g size → (∀ y, y ∈ rs → 0 ≤ y < size) →
  target <$> (rs ≫= row_stores g) = rs ≫= row_targets size.
Proof.
  intros Hg Hrs. rewrite fmap_bind_list. apply bind_ext_in.
  intros y Hy. apply row_stores_targets; auto.
Qed.

Lemma elem_of_row_targets (size i_y i : Z) (k : channel) :
  (i, k) ∈ row_targets size i_y ↔ size * i_y ≤ i < size * i_y + size.
Proof.
  unfold row_targets. rewrite list_elem_of_bind. split.
  - intros (i_x & Hik & Hix). apply elem_of_seqZ in Hix.
    rewrite !elem_of_cons, elem_of_nil in Hik.
    destruct Hik as [[= -> _]|[[= -> _]|[[= -> _]|[]]]]; lia.
  - intros Hi. exists (i - size * i_y). rewrite elem_of_seqZ.
    split; [|lia]. replace (size * i_y + (i - size * i_y)) with i by lia.
    destruct k; rewrite !elem_of_cons; auto.
Qed.

Lemma NoDup_row_targets (size i_y : Z) : NoDup (row_targets size i_y).
Proof.
  unfold row_targets. apply NoDup_bind.
  - intros x1 x2 [i k] _ _ H1 H2.
    rewrite !elem_of_cons, elem_of_nil in H1, H2.
    destruct H1 as [[= -> _]|[[= -> _]|[[= -> _]|[]]]];
      destruct H2 as [[= ?]|[[= ?]|[[= ?]|[]]]]; lia.
  - intros x _. repeat constructor; rewrite ?elem_of_cons, ?elem_of_nil;
      intros H; repeat destruct H as [H|H]; try discriminate H; done.
  - apply NoDup_seqZ.
Qed.

Lemma NoDup_rows_targets (size : Z) (rs : list Z) :
  NoDup rs → NoDup (rs ≫= row_targets size).
Proof.
  intros Hrs. apply NoDup_bind; [|intros; apply NoDup_row_targets|done].
  intros y1 y2 [i k] _ _ H1 H2.
  apply elem_of_row_targets in H1, H2. nia.
Qed.

Lemma elem_of_rows_targets (size : Z) (rs : list Z) (i_y i_x : Z) (k : channel) :
  0 ≤ i_x < size →
  (size * i_y + i_x, k) ∈ rs ≫= row_targets size ↔ i_y ∈ rs.
Proof.
  intros Hix. rewrite list_elem_of_bind. split.
  - intros (y & Hy & Hrs). apply elem_of_row_targets in Hy.
    assert (y = i_y) as -> by nia. done.
  - intros Hrs. exists i_y. split; [|done]. apply elem_of_row_targets. lia.
Qed.

(** A sequence whose stores go to pairwise distinct bytes writes a byte
    once when it is among them and never otherwise. *)
Lemma writes_to_NoDup (i : Z) (k : channel) (tr : list store) :
  NoDup (target <$> tr) →
  writes_to i k tr = if decide ((i, k) ∈ target <$> tr) then 1%nat else 0%nat.
Proof.
  unfold writes_to. induction tr as [|s tr IH]; [done|].
  rewrite fmap_cons, NoDup_cons. intros [Hs Htr].
  rewrite filter_cons. specialize (IH Htr).
  destruct (decide (target s = (i, k))) as [Heq|Hne].
  - simpl. rewrite IH, <- Heq.
    rewrite decide_False by done. rewrite decide_True by apply list_elem_of_here. done.
  - rewrite IH. repeat case_decide; try done.
    + exfalso. apply H0. by apply list_elem_of_further.
    + exfalso. apply elem_of_cons in H0 as [?|?]; [by apply Hne | done].
Qed.

Lemma writes_to_Permutation (i : Z) (k : channel) (tr tr' : list store) :
  tr ≡ₚ tr' → writes_to i k tr = writes_to i k tr'.
Proof. intros H. unfold writes_to. by rewrite H. Qed.

(** ** Running stores in another order *)

Lemma set_channel_comm (k1 k2 : channel) (v1 v2 : Z) (p : pixel) :
  k1 ≠ k2 →
  set_channel k1 v1 (set_channel k2 v2 p) = set_channel k2 v2 (set_channel k1 v1 p).
Proof. destruct p as [[p0 p1] p2], k1, k2; simpl; congruence. Qed.

(** Two stores to different bytes can be swapped. *)
Lemma exec_store_comm (s1 s2 : store) (buf : list pixel) :
  target s1 ≠ target s2 →
  exec_store s1 buf ≫= exec_store s2 = exec_store s2 buf ≫= exec_store s1.
Proof.
  destruct s1 as [i1 k1 v1], s2 as [i2 k2 v2]. unfold target, exec_store. simpl.
  intros Hne.
  destruct (decide (0 ≤ i1 < Z.of_nat (length buf))) as [H1|H1];
    destruct (decide (0 ≤ i2 < Z.of_nat (length buf))) as [H2|H2]; simpl;
    rewrite ?length_alter; rewrite ?decide_True by done;
    rewrite ?decide_False by done; try done.
  f_equal. destruct (decide (i1 = i2)) as [->|Hi].
  - rewrite !list_alter_alter_eq. apply list_alter_ext; [|done].
    intros p _. simpl. apply set_channel_comm. congruence.
  - apply list_alter_alter_ne. lia.
Qed.

(** Stores that go to pairwise distinct bytes leave the same buffer in
    whatever order they are run. *)
Lemma exec_Permutation (tr tr' : list store) :
  tr ≡ₚ tr' → NoDup (target <$> tr) → ∀ buf, exec tr buf = exec tr' buf.
Proof.
  induction 1 as [|s tr tr' Hp IH|s1 s2 tr|tr tr' tr'' Hp1 IH1 Hp2 IH2];
    intros Hnd buf.
  - done.
  - simpl. rewrite fmap_cons, NoDup_cons in Hnd. destruct Hnd as [_ Hnd].
    destruct (exec_store s buf); simpl; [by apply IH | done].
  - simpl. rewrite !fmap_cons, !NoDup_cons in Hnd.
    destruct Hnd as (Hne & _ & _).
    assert (target s2 ≠ target s1) as Hne'.
    { intros Heq. apply Hne. rewrite Heq. apply list_elem_of_here. }
    pose proof (exec_store_comm s2 s1 buf Hne') as Hc.
    transitivity ((exec_store s2 buf ≫= exec_store s1) ≫= exec tr);
      [by destruct (exec_store s2 buf)|].
    rewrite Hc. by destruct (exec_store s1 buf).
  - rewrite IH1 by done. apply IH2. by rewrite <- Hp1.
Qed.

Lemma exec_is_Some (tr : list store) (buf : list pixel) :
  Forall (λ s, 0 ≤ st_index s < Z.of_nat (length buf)) tr → is_Some (exec tr buf).
Proof.
  revert buf. induction tr as [|s tr IH]; intros buf Hall; simpl; [by eexists|].
  apply Forall_cons in Hall as [Hs Hall].
  unfold exec_store. rewrite decide_True by done. simpl.
  apply IH. by rewrite length_alter.
Qed.

(** ** Schedules *)

Lemma interleave_Permutation {A} (ts : list (list A)) (s : list A) :
  interleave ts s → s ≡ₚ concat ts.
Proof.
  induction 1 as [ts Hnil|ts1 ts2 a t s _ IH].
  - induction Hnil as [|t ts -> _ IH]; [done | exact IH].
  - rewrite concat_app in *. simpl in *.
    rewrite IH. apply Permutation_middle.
Qed.

Lemma interleave_cons_nil {A} (ts : list (list A)) (s : list A) :
  interleave ts s → interleave ([] :: ts) s.
Proof.
  induction 1 as [ts Hnil|ts1 ts2 a t s _ IH].
  - apply interleave_done. by constructor.
  - apply (interleave_step ([] :: ts1)). exact IH.
Qed.

(** Running the threads one after the other is a schedule. *)
Lemma interleave_concat {A} (ts : list (list A)) : interleave ts (concat ts).
Proof.
  induction ts as [|t ts IH]; [by apply interleave_done|].
  simpl. induction t as [|a t IHt]; simpl.
  - by apply interleave_cons_nil.
  - apply (interleave_step [] ts a t). exact IHt.
Qed.

Lemma mapM_Some_fmap {A B} (f : A → option B) (h : A → B) (l : list A) :
  (∀ x, x ∈ l → f x = Some (h x)) → mapM f l = Some (h <$> l).
Proof.
  intros H. apply mapM_Some. apply Forall2_fmap_r, Forall_Forall2_diag.
  by apply Forall_forall.
Qed.

(** The threads' store sequences, in closed form. *)
Lemma threads_stores (fuel : nat) (g : globals) (size T : Z) :
  i_x_max g = size → i_y_max g = size → 0 ≤ size →
  1 ≤ T → size + T ≤ INT_MAX + 1 →
  (4095 < fuel)%nat → (Z.to_nat size < fuel)%nat →
  Pth.threads fuel g T
  = Some ((λ t, stride (t - 1) size T ≫= row_stores g) <$> Pth.thread_ids T).
Proof.
  intros Hx Hy H0 HT Hb Hfuel Hs. unfold Pth.threads.
  apply mapM_Some_fmap. intros t Ht. apply elem_of_thread_ids in Ht.
  rewrite <- Hy. apply iterate_y_stores; rewrite ?Hx, ?Hy; try done.
  unfold INT_MAX in *. lia.
Qed.

(** All the threads' stores together are the stores of the sequential
    program in another order. *)
Lemma threads_stores_Permutation (g : globals) (size T : Z) :
  1 ≤ T →
  concat ((λ t, stride (t - 1) size T ≫= row_stores g) <$> Pth.thread_ids T)
  ≡ₚ seqZ 0 size ≫= row_stores g.
Proof.
  intros HT. rewrite concat_fmap_bind, <- bind_bind_list.
  apply bind_Permutation. by apply stripes_partition.
Qed.

Lemma sequential_stores_NoDup (g : globals) (size : Z) :
  square_image g size → NoDup (target <$> (seqZ 0 size ≫= row_stores g)).
Proof.
  intros Hg. rewrite (rows_stores_targets g size) by
    (try done; intros y Hy; apply elem_of_seqZ in Hy; lia).
  apply NoDup_rows_targets, NoDup_seqZ.
Qed.

Lemma rows_stores_in_bounds (g : globals) (size : Z) (rs : list Z) (buf : list pixel) :
  square_image g size → (∀ y, y ∈ rs → 0 ≤ y < size) →
  Z.of_nat (length buf) = size * size →
  Forall (λ s, 0 ≤ st_index s < Z.of_nat (length buf)) (rs ≫= row_stores g).
Proof.
  intros Hg Hrs Hlen. apply Forall_forall. intros s Hs.
  assert (target s ∈ rs ≫= row_targets size) as Ht.
  { rewrite <- (rows_stores_targets g) by done. by apply list_elem_of_fmap_2. }
  apply list_elem_of_bind in Ht as (y & Hy & Hin).
  apply elem_of_row_targets in Hy. specialize (Hrs y Hin). nia.
Qed.

(** The pixel a slot holds once the stores of a set of rows are run. *)
Lemma exec_rows_slot (g : globals) (size : Z) (rs : list Z) (buf : list pixel)
    (i_y i_x : Z) :
  square_image g size → NoDup rs → (∀ y, y ∈ rs → 0 ≤ y < size) →
  Z.of_nat (length buf) = size * size →
  i_y ∈ rs → 0 ≤ i_x < size →
  ∃ out,
    exec (rs ≫= row_stores g) buf = Some out ∧
    out !! Z.to_nat (size * i_y + i_x)
    = Some (stored_permutation
              (if decide (0 ≤ GLOBAL_SCHEME g ≤ 4) then GLOBAL_SCHEME g else 5)
              (colors (iteration_count (column_c_x g i_x) (row_c_y g i_y)))).
Proof.
  intros Hg Hnd Hrs Hlen Hiy Hix.
  destruct (exec_is_Some (rs ≫= row_stores g) buf) as [out Hout];
    [by apply (rows_stores_in_bounds g size)|].
  exists out. split; [done|].
  assert (NoDup (target <$> (rs ≫= row_stores g))) as Hnt.
  { rewrite (rows_stores_targets g size) by done. by apply NoDup_rows_targets. }
  apply elem_of_Permutation in Hiy as [rs' Hp].
  assert (i_x ∈ seqZ 0 (i_x_max g)) as Hx.
  { destruct Hg as (-> & _). apply elem_of_seqZ. lia. }
  apply elem_of_Permutation in Hx as [xs Hq].
  assert (rs ≫= row_stores g ≡ₚ
          ((xs ≫= pixel_stores g i_y) ++ (rs' ≫= row_stores g)) ++ pixel_stores g i_y i_x)
    as Hperm.
  { rewrite Hp, bind_cons. unfold row_stores at 1. rewrite Hq, bind_cons.
    rewrite <- (app_assoc (pixel_stores g i_y i_x)). apply Permutation_app_comm. }
  rewrite (exec_Permutation _ _ Hperm Hnt), exec_app in Hout.
  destruct (exec (_ ++ _) buf) as [mid|] eqn:Hmid; simpl in Hout; [|done].
  assert (in_buffer g i_x i_y mid) as Hb.
  { unfold in_buffer. destruct Hg as (_ & -> & H0 & Hsq).
    rewrite (exec_length _ _ _ Hmid), Hlen. unfold INT_MAX in *.
    specialize (Hrs i_y (proj2 (elem_of_Permutation rs i_y) (ex_intro _ rs' Hp))).
    nia. }
  pose proof (pixel_after_update_value g
    (iteration_count (column_c_x g i_x) (row_c_y g i_y)) i_x i_y
    (GLOBAL_SCHEME g) mid Hb) as Hpix.
  unfold pixel_after_update in Hpix. unfold pixel_stores in Hout.
  rewrite Hout in Hpix. simpl in Hpix.
  destruct Hg as (_ & Hy & _). by rewrite Hy in Hpix.
Qed.

(** ** The pthread program against the sequential one *)

Lemma sequential_run_is_Some (fuel : nat) (g : globals) (size : Z) (buf : list pixel) :
  square_image g size → Z.of_nat (length buf) = size * size →
  (4095 < fuel)%nat → (Z.to_nat size < fuel)%nat →
  ∃ out, Seq.run fuel g buf = Some out ∧
         exec (seqZ 0 size ≫= row_stores g) buf = Some out.
Proof.
  intros Hg Hlen Hfuel Hs.
  destruct (exec_is_Some (seqZ 0 size ≫= row_stores g) buf) as [out Hout].
  { apply (rows_stores_in_bounds g size); try done.
    intros y Hy. apply elem_of_seqZ in Hy. lia. }
  exists out. split; [|done]. unfold Seq.run.
  destruct Hg as (Hx & Hy & H0 & Hsq).
  rewrite compute_mandelbrot_stores; rewrite ?Hx, ?Hy; try done;
    try (unfold INT_MAX in *; nia).
Qed.

Lemma pthread_run_sequential (fuel : nat) (g : globals) (size T : Z)
    (buf buf' : list pixel) :
  square_image g size → 1 ≤ T → size + T ≤ INT_MAX + 1 →
  (4095 < fuel)%nat → (Z.to_nat size < fuel)%nat →
  Pth.run fuel g T buf buf' →
  exec (seqZ 0 size ≫= row_stores g) buf = Some buf'.
Proof.
  intros Hg HT Hb Hfuel Hs [trs sched out Htrs Hil Hex].
  rewrite (threads_stores fuel g size T) in Htrs by (try done; apply Hg).
  injection Htrs as <-.
  apply interleave_Permutation in Hil.
  rewrite threads_stores_Permutation in Hil by done.
  rewrite <- Hex. apply exec_Permutation; [done|].
  by apply sequential_stores_NoDup.
Qed.

(** C1. For an image of side [size > 0] and a buffer of [size * size]
    slots, [compute_mandelbrot] leaves a buffer [out]; and for every number
    [T >= 1] of threads (with [size * size] and [size + T] in the range of
    [int]) the pthread program leaves a buffer, and every buffer it can leave,
    under any schedule of its threads' stores, is [out], slot for slot. So the
    result is the same for every [T]. *)
Theorem pthread_refines_sequential (x_min x_max y_min y_max : float)
    (size scheme : Z) (buf : list pixel) (fuel : nat) :
  0 < size → size * size ≤ INT_MAX →
  Z.of_nat (length buf) = size * size →
  (4095 < fuel)%nat → (Z.to_nat size < fuel)%nat →
  let g := configure x_min x_max y_min y_max size scheme in
  ∃ out,
    Seq.run fuel g buf = Some out ∧
    ∀ T, 1 ≤ T → size + T ≤ INT_MAX + 1 →
      (∃ buf', Pth.run fuel g T buf buf') ∧
      (∀ buf', Pth.run fuel g T buf buf' → buf' = out).
Proof.
  intros Hsize Hsq Hlen Hfuel Hs g.
  assert (square_image g size) as Hg by (apply square_image_configure; lia).
  destruct (sequential_run_is_Some fuel g size buf) as (out & Hrun & Hout); try done.
  exists out. split; [done|]. intros T HT Hb. split.
  - exists out. eapply Pth.run_schedule.
    + apply (threads_stores fuel g size T); try done. lia.
    + apply interleave_concat.
    + rewrite <- Hout. symmetry. apply exec_Permutation.
      * symmetry. by apply threads_stores_Permutation.
      * by apply sequential_stores_NoDup.
  - intros buf' Hrun'.
    apply (pthread_run_sequential fuel g size T) in Hrun'; try done.
    congruence.
Qed.

Lemma pthread_refines_sequential_witness :
  let g := configure (-2.5) 1.5 (-2) 2 4 0 in
  ∃ out,
    Seq.run 4096 g small_buffer = Some out ∧
    ∀ T, 1 ≤ T → 4 + T ≤ INT_MAX + 1 →
      (∃ buf', Pth.run 4096 g T small_buffer buf') ∧
      (∀ buf', Pth.run 4096 g T small_buffer buf' → buf' = out).
Proof.
  apply (pthread_refines_sequential (-2.5) 1.5 (-2) 2 4 0 small_buffer 4096);
    unfold INT_MAX; simpl; lia.
Defined.

(** Why [size + T] is kept in the range of [int]: beyond it the addition
    [i_y += NUM_THREADS] overflows, which C leaves undefined; with the
    wrap-around written out here the loop would go on with negative rows
    (2 rows and [INT_MAX] threads: thread 2 goes through 1, [INT_MIN], -1). *)
Lemma iterate_y_rows_wrap_example :
  Pth.iterate_y_rows 5 (configure 0 1 0 1 2 0) INT_MAX 2
  = Some [1; -2147483648; -1].
Proof. vm_compute. reflexivity. Qed.

(** C2. For an image of side [size >= 0] and [T >= 1] threads (with
    [size + T] in the range of [int]), the loop of thread [t] goes through
    exactly the rows [t - 1 + k T] below [size]; the row sets of the threads
    [1 .. T] are pairwise disjoint, their union is [0 .. size - 1], and
    together they hold each row once. Hence (with [size * size] in the range
    of [int]) every byte of the slot [size * i_y + i_x] is stored once by all
    threads together: once by the thread that owns row [i_y], whose stores are
    those of its rows, and by no other thread. *)
Theorem stripes_partition_rows (x_min x_max y_min y_max : float)
    (size scheme T : Z) (fuel : nat) :
  0 ≤ size → 1 ≤ T → size + T ≤ INT_MAX + 1 →
  (Z.to_nat size < fuel)%nat →
  let g := configure x_min x_max y_min y_max size scheme in
  ∃ rows : Z → list Z,
    (∀ t, 1 ≤ t ≤ T →
       Pth.iterate_y_rows fuel g T t = Some (rows t) ∧
       ∀ y, y ∈ rows t ↔ 0 ≤ y < size ∧ ∃ k, 0 ≤ k ∧ y = t - 1 + k * T) ∧
    (∀ t t' y, 1 ≤ t ≤ T → 1 ≤ t' ≤ T → y ∈ rows t → y ∈ rows t' → t = t') ∧
    (∀ y, 0 ≤ y < size ↔ ∃ t, 1 ≤ t ≤ T ∧ y ∈ rows t) ∧
    Pth.thread_ids T ≫= rows ≡ₚ seqZ 0 size ∧
    (size * size ≤ INT_MAX → (4095 < fuel)%nat →
     ∃ trs : list (list store),
       Pth.threads fuel g T = Some trs ∧
       ∀ i_x i_y k, 0 ≤ i_x < size → 0 ≤ i_y < size →
         writes_to (size * i_y + i_x) k (concat trs) = 1%nat ∧
         ∀ t, 1 ≤ t ≤ T →
           ∃ tr, trs !! Z.to_nat (t - 1) = Some tr ∧
                 Pth.iterate_y fuel g T t = Some tr ∧
                 tr = rows t ≫= row_stores g ∧
                 writes_to (size * i_y + i_x) k tr
                 = if decide (i_y ∈ rows t) then 1%nat else 0%nat).
Proof.
  intros Hsize HT Hb Hs g.
  exists (λ t, stride (t - 1) size T).
  split; [|split; [|split; [|split]]].
  - intros t Ht. split.
    + apply (iterate_y_rows_stride fuel g T t); simpl; done.
    + intros y. rewrite elem_of_stride by done. split.
      * intros (Hy & k & Hk & ->). split; [lia|]. by exists k.
      * intros (Hy & k & Hk & ->). split; [nia|]. by exists k.
  - intros t t' y Ht Ht' Hy Hy'.
    apply elem_of_stripe in Hy, Hy'; try done. lia.
  - intros y. split.
    + intros Hy. exists (y `mod` T + 1).
      pose proof (Z.mod_pos_bound y T ltac:(lia)).
      rewrite elem_of_stripe by lia. lia.
    + intros (t & Ht & Hy). apply elem_of_stripe in Hy; try done. lia.
  - by apply stripes_partition.
  - intros Hsq Hfuel.
    assert (square_image g size) as Hg by (by apply square_image_configure).
    exists ((λ t, stride (t - 1) size T ≫= row_stores g) <$> Pth.thread_ids T).
    split; [by apply threads_stores|].
    intros i_x i_y k Hix Hiy. split.
    + rewrite (writes_to_Permutation _ _ _ _ (threads_stores_Permutation g size T HT)).
      rewrite writes_to_NoDup by (by apply sequential_stores_NoDup).
      rewrite (rows_stores_targets g size) by
        (try done; intros y Hy; apply elem_of_seqZ in Hy; lia).
      apply decide_True. apply elem_of_rows_targets; [done|].
      apply elem_of_seqZ. lia.
    + intros t Ht. exists (stride (t - 1) size T ≫= row_stores g).
      assert (∀ y, y ∈ stride (t - 1) size T → 0 ≤ y < size) as Hrows.
      { intros y Hy. apply elem_of_stripe in Hy; try done. lia. }
      split; [|split; [|split]].
      * rewrite list_lookup_fmap. unfold Pth.thread_ids.
        rewrite (proj2 (lookup_seqZ 1 T (Z.to_nat (t - 1)) t)) by lia. done.
      * apply (iterate_y_stores fuel g T t); simpl; try done.
        unfold INT_MAX in *. lia.
      * done.
      * rewrite writes_to_NoDup.
        -- rewrite (rows_stores_targets g size) by done.
           apply decide_ext. by apply elem_of_rows_targets.
        -- rewrite (rows_stores_targets g size) by done.
           by apply NoDup_rows_targets, NoDup_stride.
Qed.

Lemma stripes_partition_rows_witness :
  let g := configure (-2.5) 1.5 (-2) 2 4 0 in
  ∃ rows : Z → list Z,
    (∀ t, 1 ≤ t ≤ 3 →
       Pth.iterate_y_rows 4096 g 3 t = Some (rows t) ∧
       ∀ y, y ∈ rows t ↔ 0 ≤ y < 4 ∧ ∃ k, 0 ≤ k ∧ y = t - 1 + k * 3) ∧
    (∀ t t' y, 1 ≤ t ≤ 3 → 1 ≤ t' ≤ 3 → y ∈ rows t → y ∈ rows t' → t = t') ∧
    (∀ y, 0 ≤ y < 4 ↔ ∃ t, 1 ≤ t ≤ 3 ∧ y ∈ rows t) ∧
    Pth.thread_ids 3 ≫= rows ≡ₚ seqZ 0 4 ∧
    (4 * 4 ≤ INT_MAX → (4095 < 4096)%nat →
     ∃ trs : list (list store),
       Pth.threads 4096 g 3 = Some trs ∧
       ∀ i_x i_y k, 0 ≤ i_x < 4 → 0 ≤ i_y < 4 →
         writes_to (4 * i_y + i_x) k (concat trs) = 1%nat ∧
         ∀ t, 1 ≤ t ≤ 3 →
           ∃ tr, trs !! Z.to_nat (t - 1) = Some tr ∧
                 Pth.iterate_y 4096 g 3 t = Some tr ∧
                 tr = rows t ≫= row_stores g ∧
                 writes_to (4 * i_y + i_x) k tr
                 = if decide (i_y ∈ rows t) then 1%nat else 0%nat).
Proof.
  apply (stripes_partition_rows (-2.5) 1.5 (-2) 2 4 0 3 4096);
    unfold INT_MAX; simpl; lia.
Defined.

(** ** The plane point of a pixel *)

(** C6. In [compute_mandelbrot], for every pixel [(i_x, i_y)] of the image
    the escape-time iteration is run on [c_x = x_min + i_x * pixel_width] and
    on [c_y = y_min + i_y * pixel_height], with [c_y] replaced by exactly 0.0
    when [|c_y| < pixel_height / 2]: the stores made are those of
    [update_rgb_buffer] on the count of that point, pixel after pixel, and the
    pixel's slot ends up holding its colour. *)
Theorem compute_mandelbrot_plane_points (x_min x_max y_min y_max : float)
    (size scheme : Z) (buf : list pixel) (fuel : nat) :
  0 < size → size * size ≤ INT_MAX →
  Z.of_nat (length buf) = size * size →
  (4095 < fuel)%nat → (Z.to_nat size < fuel)%nat →
  let g := configure x_min x_max y_min y_max size scheme in
  let pixel_width := ((x_max - x_min) / float_of_int size)%float in
  let pixel_height := ((y_max - y_min) / float_of_int size)%float in
  let cx := λ i_x, (x_min + float_of_int i_x * pixel_width)%float in
  let cy := λ i_y, (y_min + float_of_int i_y * pixel_height)%float in
  let cy_used := λ i_y,
    if (PrimFloat.abs (cy i_y) <? pixel_height / 2)%float then 0%float else cy i_y in
  Seq.compute_mandelbrot fuel g
  = Some (seqZ 0 size ≫= λ i_y, seqZ 0 size ≫= λ i_x,
            update_rgb_buffer g (iteration_count (cx i_x) (cy_used i_y)) i_x i_y scheme)
  ∧ ∀ i_x i_y, 0 ≤ i_x < size → 0 ≤ i_y < size →
      escape_time fuel (cx i_x) (cy_used i_y)
      = Some (iteration_count (cx i_x) (cy_used i_y)) ∧
      ∃ out,
        Seq.run fuel g buf = Some out ∧
        out !! Z.to_nat (size * i_y + i_x)
        = Some (stored_permutation (if decide (0 ≤ scheme ≤ 4) then scheme else 5)
                  (colors (iteration_count (cx i_x) (cy_used i_y)))).
Proof.
  intros Hsize Hsq Hlen Hfuel Hs g pixel_width pixel_height cx cy cy_used.
  assert (square_image g size) as Hg by (apply square_image_configure; lia).
  split.
  - rewrite compute_mandelbrot_stores; simpl; try done;
      try (unfold INT_MAX in *; nia).
  - intros i_x i_y Hix Hiy. split; [by apply iteration_count_spec|].
    destruct (sequential_run_is_Some fuel g size buf) as (out & Hrun & Hout);
      try done.
    exists out. split; [done|].
    destruct (exec_rows_slot g size (seqZ 0 size) buf i_y i_x)
      as (out' & Hout' & Hslot); try done.
    + apply NoDup_seqZ.
    + intros y Hy. apply elem_of_seqZ in Hy. lia.
    + apply elem_of_seqZ. lia.
    + rewrite Hout in Hout'. injection Hout' as <-. exact Hslot.
Qed.

Lemma compute_mandelbrot_plane_points_witness :
  let g := configure (-2.5) 1.5 (-2) 2 4 0 in
  let pixel_width := ((1.5 - -2.5) / float_of_int 4)%float in
  let pixel_height := ((2 - -2) / float_of_int 4)%float in
  let cx := λ i_x, (-2.5 + float_of_int i_x * pixel_width)%float in
  let cy := λ i_y, (-2 + float_of_int i_y * pixel_height)%float in
  let cy_used := λ i_y,
    if (PrimFloat.abs (cy i_y) <? pixel_height / 2)%float then 0%float else cy i_y in
  Seq.compute_mandelbrot 4096 g
  = Some (seqZ 0 4 ≫= λ i_y, seqZ 0 4 ≫= λ i_x,
            update_rgb_buffer g (iteration_count (cx i_x) (cy_used i_y)) i_x i_y 0)
  ∧ ∀ i_x i_y, 0 ≤ i_x < 4 → 0 ≤ i_y < 4 →
      escape_time 4096 (cx i_x) (cy_used i_y)
      = Some (iteration_count (cx i_x) (cy_used i_y)) ∧
      ∃ out,
        Seq.run 4096 g small_buffer = Some out ∧
        out !! Z.to_nat (4 * i_y + i_x)
        = Some (stored_permutation (if decide (0 ≤ 0 ≤ 4) then 0 else 5)
                  (colors (iteration_count (cx i_x) (cy_used i_y)))).
Proof.
  apply (compute_mandelbrot_plane_points (-2.5) 1.5 (-2) 2 4 0 small_buffer 4096);
    unfold INT_MAX; simpl; lia.
Defined.

(** The snap is an exact zero on a concrete row: in the full picture at
    4 by 4 pixels, row 2 has [c_y = -2 + 2 * 1 = 0]. *)
Lemma row_c_y_snap_example :
  row_c_y small_image 2 = 0%float ∧ row_c_y small_image 1 = (-1)%float.
Proof. split; vm_compute; reflexivity. Qed.

(** ** Too few arguments *)

Lemma printf_buffer_untouched (lines : list string) :
  buffer_untouched (EvPrintf <$> lines).
Proof. apply Forall_fmap, Forall_forall. intros s _. by split. Qed.

Lemma seq_init_usage (sscanf_lf : string → option float)
    (sscanf_d : string → option Z) (argc : Z) (argv : list string) :
  argc < 6 →
  Seq.init sscanf_lf sscanf_d argc argv = (EvPrintf <$> Seq.usage, Exited 0).
Proof.
  intros Hargc. unfold Seq.init.
  rewrite (proj2 (Z.ltb_lt argc 6) Hargc). reflexivity.
Qed.

Lemma pth_init_usage (sscanf_lf : string → option float)
    (sscanf_d : string → option Z) (argc : Z) (argv : list string) :
  argc < 6 →
  Pth.init sscanf_lf sscanf_d argc argv = (EvPrintf <$> Pth.usage, Exited 0).
Proof.
  intros Hargc. unfold Pth.init.
  rewrite (proj2 (Z.ltb_lt argc 6) Hargc). reflexivity.
Qed.

(** C8. With [argc < 6] both programs print their usage message and call
    [exit(0)]: this is all [main] does, on every run, and the image buffer is
    neither allocated nor written. *)
Theorem too_few_arguments_exit (sscanf_lf : string → option float)
    (sscanf_d : string → option Z) (fuel : nat) (argc : Z) (argv : list string) :
  argc < 6 →
  (Seq.main sscanf_lf sscanf_d fuel argc argv = (EvPrintf <$> Seq.usage, Exited 0)
   ∧ Seq.usage ≠ []
   ∧ buffer_untouched (Seq.main sscanf_lf sscanf_d fuel argc argv).1)
  ∧
  ((∀ b, Pth.main sscanf_lf sscanf_d fuel argc argv b ↔
         b = (EvPrintf <$> Pth.usage, Exited 0))
   ∧ Pth.usage ≠ []
   ∧ ∀ b, Pth.main sscanf_lf sscanf_d fuel argc argv b → buffer_untouched b.1).
Proof.
  intros Hargc.
  pose proof (seq_init_usage sscanf_lf sscanf_d argc argv Hargc) as Hseq.
  pose proof (pth_init_usage sscanf_lf sscanf_d argc argv Hargc) as Hpth.
  assert (∀ b, Pth.main sscanf_lf sscanf_d fuel argc argv b →
               b = (EvPrintf <$> Pth.usage, Exited 0)) as Honly.
  { intros b [tr st Hinit|tr Hinit|tr g T Hinit _|tr g T trs sched Hinit _ _];
      rewrite Hpth in Hinit;
      [by injection Hinit as <- <- | discriminate Hinit
       | discriminate Hinit | discriminate Hinit]. }
  split; [split; [|split]|split; [|split]].
  - unfold Seq.main. rewrite Hseq. reflexivity.
  - discriminate.
  - unfold Seq.main. rewrite Hseq. apply printf_buffer_untouched.
  - intros b. split; [apply Honly|].
    intros ->. by apply Pth.main_exited.
  - discriminate.
  - intros b Hb. rewrite (Honly b Hb). apply printf_buffer_untouched.
Qed.

Lemma too_few_arguments_exit_witness :
  (Seq.main (λ _, None) (λ _, None) 0 3 ["./mandelbrot_seq"; "-2.5"; "1.5"]
   = (EvPrintf <$> Seq.usage, Exited 0)
   ∧ Seq.usage ≠ []
   ∧ buffer_untouched
       (Seq.main (λ _, None) (λ _, None) 0 3 ["./mandelbrot_seq"; "-2.5"; "1.5"]).1)
  ∧
  ((∀ b, Pth.main (λ _, None) (λ _, None) 0 3 ["./mandelbrot_pth"; "-2.5"; "1.5"] b ↔
         b = (EvPrintf <$> Pth.usage, Exited 0))
   ∧ Pth.usage ≠ []
   ∧ ∀ b, Pth.main (λ _, None) (λ _, None) 0 3 ["./mandelbrot_pth"; "-2.5"; "1.5"] b →
          buffer_untouched b.1).
Proof.
  split.
  - apply (too_few_arguments_exit (λ _, None) (λ _, None) 0 3
             ["./mandelbrot_seq"; "-2.5"; "1.5"]). lia.
  - apply (too_few_arguments_exit (λ _, None) (λ _, None) 0 3
             ["./mandelbrot_pth"; "-2.5"; "1.5"]). lia.
Defined.

(** * Further properties of the two programs *)

(** ** Reading the arguments *)

Lemma seq_init_value (sscanf_lf : string → option float)
    (sscanf_d : string → option Z) (a0 a1 a2 a3 a4 a5 : string) (rest : list string) :
  let argv := a0 :: a1 :: a2 :: a3 :: a4 :: a5 :: rest in
  Seq.init sscanf_lf sscanf_d (Z.of_nat (length argv)) argv
  = ([], Return (configure (default 0%float (sscanf_lf a1))
                           (default 0%float (sscanf_lf a2))
                           (default 0%float (sscanf_lf a3))
                           (default 0%float (sscanf_lf a4))
                           (default 0 (sscanf_d a5))
                           (match rest with
                            | [a6] => default 0 (sscanf_d a6)
                            | _ => 0
                            end))).
Proof.
  intros argv. unfold Seq.init.
  destruct (Z.of_nat (length argv) <? 6) eqn:E;
    [apply Z.ltb_lt in E; simpl in E; lia|].
  destruct rest as [|a6 [|a7 rest]].
  - reflexivity.
  - reflexivity.
  - destruct (Z.of_nat (length argv) =? 7) eqn:E7;
      [apply Z.eqb_eq in E7; simpl in E7; lia|].
    reflexivity.
Qed.

(** X1. [init] of the sequential program, given at least six arguments, prints
    nothing and does not read past [argv]; it configures the run from
    [argv[1 .. 5]], a value that does not scan leaving 0, and takes the colour
    scheme from [argv[6]] only when there are exactly seven arguments: with
    more, the scheme stays 0. *)
Theorem seq_init_configures (sscanf_lf : string → option float)
    (sscanf_d : string → option Z) (a0 a1 a2 a3 a4 a5 : string) (rest : list string) :
  let argv := a0 :: a1 :: a2 :: a3 :: a4 :: a5 :: rest in
  Seq.init sscanf_lf sscanf_d (Z.of_nat (length argv)) argv
  = ([], Return (configure (default 0%float (sscanf_lf a1))
                           (default 0%float (sscanf_lf a2))
                           (default 0%float (sscanf_lf a3))
                           (default 0%float (sscanf_lf a4))
                           (default 0 (sscanf_d a5))
                           (match rest with
                            | [a6] => default 0 (sscanf_d a6)
                            | _ => 0
                            end))).
Proof.
  intros argv. unfold Seq.init.
  destruct (Z.of_nat (length argv) <? 6) eqn:E;
    [apply Z.ltb_lt in E; simpl in E; lia|].
  destruct rest as [|a6 [|a7 rest]]; [reflexivity | reflexivity |].
  destruct (Z.of_nat (length argv) =? 7) eqn:E7;
    [apply Z.eqb_eq in E7; simpl in E7; lia | reflexivity].
Qed.

Lemma pth_init_not_usage (sscanf_lf : string → option float)
    (sscanf_d : string → option Z) (a0 a1 a2 a3 a4 a5 : string) (rest : list string) :
  (Z.of_nat (length (a0 :: a1 :: a2 :: a3 :: a4 :: a5 :: rest)) <? 6) = false.
Proof. apply Z.ltb_ge. simpl. lia. Qed.

(** X2. The two documented ways of giving the number of threads work: [-nt k]
    right after the image size leaves the scheme 0, and [-nt k] right after a
    colour scheme sets both; whatever follows is ignored, and a [k] that does
    not scan leaves 4 threads. *)
Theorem pth_init_nt_flag (sscanf_lf : string → option float)
    (sscanf_d : string → option Z) (a0 a1 a2 a3 a4 a5 s k : string)
    (rest : list string) :
  s ≠ "-nt" →
  let configured scheme :=
    configure (default 0%float (sscanf_lf a1)) (default 0%float (sscanf_lf a2))
              (default 0%float (sscanf_lf a3)) (default 0%float (sscanf_lf a4))
              (default 0 (sscanf_d a5)) scheme in
  let argv1 := a0 :: a1 :: a2 :: a3 :: a4 :: a5 :: "-nt" :: k :: rest in
  let argv2 := a0 :: a1 :: a2 :: a3 :: a4 :: a5 :: s :: "-nt" :: k :: rest in
  Pth.init sscanf_lf sscanf_d (Z.of_nat (length argv1)) argv1
  = ([], Return (configured 0, default 4 (sscanf_d k)))
  ∧ Pth.init sscanf_lf sscanf_d (Z.of_nat (length argv2)) argv2
  = ([], Return (configured (default 0 (sscanf_d s)), default 4 (sscanf_d k))).
Proof.
  intros Hs configured argv1 argv2. split.
  - unfold Pth.init, argv1. rewrite pth_init_not_usage by done.
    destruct (_ >=? 7) eqn:E;
      [|rewrite Z.geb_leb in E; apply Z.leb_gt in E; simpl in E; lia].
    reflexivity.
  - unfold Pth.init, argv2. rewrite pth_init_not_usage by done.
    destruct (_ >=? 7) eqn:E;
      [|rewrite Z.geb_leb in E; apply Z.leb_gt in E; simpl in E; lia].
    destruct (_ >? 7) eqn:E';
      [|rewrite Z.gtb_ltb in E'; apply Z.ltb_ge in E'; simpl in E'; lia].
    simpl. rewrite (proj2 (String.eqb_neq s "-nt") Hs). reflexivity.
Qed.

Lemma pth_init_nt_flag_witness :
  let configured scheme :=
    configure (default 0%float (@None float)) (default 0%float (@None float))
              (default 0%float (@None float)) (default 0%float (@None float))
              (default 0 (Some 8)) scheme in
  let argv1 := ["./mandelbrot_pth"; "-2.5"; "1.5"; "-2.0"; "2.0"; "8"; "-nt"; "8"] in
  let argv2 := ["./mandelbrot_pth"; "-2.5"; "1.5"; "-2.0"; "2.0"; "8"; "8"; "-nt"; "8"] in
  Pth.init (λ _, None) (λ _, Some 8) (Z.of_nat (length argv1)) argv1
  = ([], Return (configured 0, default 4 (Some 8)))
  ∧ Pth.init (λ _, None) (λ _, Some 8) (Z.of_nat (length argv2)) argv2
  = ([], Return (configured (default 0 (Some 8)), default 4 (Some 8))).
Proof.
  apply (pth_init_nt_flag (λ _, None) (λ _, Some 8)
           "./mandelbrot_pth" "-2.5" "1.5" "-2.0" "2.0" "8" "8" "8" []).
  discriminate.
Defined.

(** X3. A [-nt] that ends the command line, in either documented place, makes
    [init] scan [argv[argc]], which is no argument: the program faults before
    anything is allocated or computed, on every run. *)
Theorem pth_init_nt_without_value (sscanf_lf : string → option float)
    (sscanf_d : string → option Z) (fuel : nat)
    (a0 a1 a2 a3 a4 a5 s : string) :
  s ≠ "-nt" →
  let argv1 := [a0; a1; a2; a3; a4; a5; "-nt"] in
  let argv2 := [a0; a1; a2; a3; a4; a5; s; "-nt"] in
  (∀ b, Pth.main sscanf_lf sscanf_d fuel (Z.of_nat (length argv1)) argv1 b
        ↔ b = ([], Crashed))
  ∧ (∀ b, Pth.main sscanf_lf sscanf_d fuel (Z.of_nat (length argv2)) argv2 b
          ↔ b = ([], Crashed)).
Proof.
  intros Hs argv1 argv2.
  assert (Pth.init sscanf_lf sscanf_d (Z.of_nat (length argv1)) argv1 = ([], Crashed))
    as H1 by reflexivity.
  assert (Pth.init sscanf_lf sscanf_d (Z.of_nat (length argv2)) argv2 = ([], Crashed))
    as H2.
  { unfold Pth.init, argv2. simpl.
    rewrite (proj2 (String.eqb_neq s "-nt") Hs). reflexivity. }
  split; intros b; split.
  - intros [tr st Hinit|tr Hinit|tr g T Hinit _|tr g T trs sched Hinit _ _];
      rewrite H1 in Hinit;
      [discriminate Hinit | by injection Hinit as <-
       | discriminate Hinit | discriminate Hinit].
  - intros ->. by apply Pth.main_crashed.
  - intros [tr st Hinit|tr Hinit|tr g T Hinit _|tr g T trs sched Hinit _ _];
      rewrite H2 in Hinit;
      [discriminate Hinit | by injection Hinit as <-
       | discriminate Hinit | discriminate Hinit].
  - intros ->. by apply Pth.main_crashed.
Qed.

Lemma pth_init_nt_without_value_witness :
  let argv1 := ["./mandelbrot_pth"; "-2.5"; "1.5"; "-2.0"; "2.0"; "8"; "-nt"] in
  let argv2 := ["./mandelbrot_pth"; "-2.5"; "1.5"; "-2.0"; "2.0"; "8"; "3"; "-nt"] in
  (∀ b, Pth.main (λ _, None) (λ _, None) 0 (Z.of_nat (length argv1)) argv1 b
        ↔ b = ([], Crashed))
  ∧ (∀ b, Pth.main (λ _, None) (λ _, None) 0 (Z.of_nat (length argv2)) argv2 b
          ↔ b = ([], Crashed)).
Proof.
  apply (pth_init_nt_without_value (λ _, None) (λ _, None) 0
           "./mandelbrot_pth" "-2.5" "1.5" "-2.0" "2.0" "8" "3").
  discriminate.
Defined.

(** ** The benchmark script's command lines *)

Lemma counter_is_not_nt :
  Forall (λ i, String.eqb (print_d i) "-nt" = false) (seqZ 1 MAX_THREADS).
Proof. vm_compute. repeat constructor. Qed.

(** X4. Every run the script makes of the pthread program has seven arguments,
    the last being the counter [i]: [init] takes it as the colour scheme, and
    the number of threads is the default 4 in all of them. *)
Theorem benchmark_threads_default (sscanf_lf : string → option float)
    (sscanf_d : string → option Z) (argv : list string) :
  argv ∈ benchmark_runs "mandelbrot_pth" →
  ∃ (i : Z) (g : globals),
    1 ≤ i ≤ MAX_THREADS ∧
    argv !! 6%nat = Some (print_d i) ∧
    Pth.init sscanf_lf sscanf_d (Z.of_nat (length argv)) argv
    = ([], Return (g, NUM_THREADS_default)) ∧
    GLOBAL_SCHEME g = default 0 (sscanf_d (print_d i)).
Proof.
  unfold benchmark_runs. intros H.
  apply list_elem_of_bind in H as (j & H & Hj).
  apply list_elem_of_bind in H as (i & H & Hi).
  rewrite decide_False in H by (intros [? _]; discriminate).
  pose proof (proj1 (Forall_forall _ _) counter_is_not_nt i Hi) as Hnt.
  apply elem_of_seqZ in Hi. exists i.
  unfold benchmark_commands in H.
  rewrite !elem_of_cons, elem_of_nil in H.
  destruct H as [->|[->|[->|[->|[]]]]];
    eexists; (split; [unfold MAX_THREADS in *; lia|]); (split; [reflexivity|]);
    unfold Pth.init; simpl; rewrite Hnt; split; reflexivity.
Qed.

Lemma benchmark_threads_default_witness :
  ∃ (i : Z) (g : globals),
    1 ≤ i ≤ MAX_THREADS ∧
    ["./mandelbrot_pth"; "-2.5"; "1.5"; "-2.0"; "2.0"; "16"; "8"] !! 6%nat
    = Some (print_d i) ∧
    Pth.init (λ _, None) (λ _, None)
      (Z.of_nat (length ["./mandelbrot_pth"; "-2.5"; "1.5"; "-2.0"; "2.0"; "16"; "8"]))
      ["./mandelbrot_pth"; "-2.5"; "1.5"; "-2.0"; "2.0"; "16"; "8"]
    = ([], Return (g, NUM_THREADS_default)) ∧
    GLOBAL_SCHEME g = default 0 ((λ _, None) (print_d i)).
Proof.
  apply (benchmark_threads_default (λ _, None) (λ _, None)
           ["./mandelbrot_pth"; "-2.5"; "1.5"; "-2.0"; "2.0"; "16"; "8"]).
  vm_compute. do 28 apply list_elem_of_further. apply list_elem_of_here.
Defined.

(** ** More on the colour mapper *)

Lemma stored_permutation_inj (s : Z) (abc abc' : Z * Z * Z) :
  stored_permutation s abc = stored_permutation s abc' → abc = abc'.
Proof.
  destruct abc as [[a b] c], abc' as [[a' b'] c']. unfold stored_permutation.
  repeat (destruct (s =? _)); congruence.
Qed.

Lemma colors_nibbles (n : Z) :
  ∃ d1 d2 d3, 0 ≤ d1 ≤ 15 ∧ 0 ≤ d2 ≤ 15 ∧ 0 ≤ d3 ≤ 15 ∧
    colors n = (17 * d1, 17 * d2, 17 * d3).
Proof.
  unfold colors, spec_base_channels. destruct (n >=? iteration_max).
  - exists 0, 0, 0. repeat split; lia.
  - exists (Z.land (Z.shiftr n 8) 0xF), (Z.land (Z.shiftr n 4) 0xF), (Z.land n 0xF).
    pose proof (nibble_range (Z.shiftr n 8)).
    pose proof (nibble_range (Z.shiftr n 4)).
    pose proof (nibble_range n).
    repeat split; try lia. f_equal; [f_equal|]; lia.
Qed.

(** The three nibbles of a count below 4096 give the count back. *)
Lemma nibbles_recompose (n : Z) :
  0 ≤ n < 4096 →
  n = 256 * Z.land (Z.shiftr n 8) 0xF + 16 * Z.land (Z.shiftr n 4) 0xF + Z.land n 0xF.
Proof.
  intros Hn. change 0xF with (Z.ones 4).
  rewrite !Z.land_ones, !Z.shiftr_div_pow2 by lia.
  change (2 ^ 4) with 16. change (2 ^ 8) with 256.
  Z.div_mod_to_equations. lia.
Qed.

Lemma colors_inj (n m : Z) :
  1 ≤ n ≤ 4095 → 1 ≤ m ≤ 4095 → colors n = colors m → n = m.
Proof.
  intros Hn Hm. unfold colors, spec_base_channels. change iteration_max with 4095.
  pose proof (nibbles_recompose n) as Rn. pose proof (nibbles_recompose m) as Rm.
  destruct (n >=? 4095) eqn:En, (m >=? 4095) eqn:Em; intros H;
    [lia | injection H as H1 H2 H3; lia | injection H as H1 H2 H3; lia
     | injection H as H1 H2 H3; lia].
Qed.

(** X5. For every iteration count, pixel and scheme, however the arguments are
    chosen, [update_rgb_buffer] stores to the bytes 0, 1 and 2 of the one
    slot [i_y_max * y + x], and each value stored is 17 times a nibble: a
    byte between 0 and 255 that the conversion to [unsigned char] leaves as
    it is. *)
Theorem update_rgb_buffer_bytes (g : globals) (n x y s : Z) :
  st_channel <$> update_rgb_buffer g n x y s = [Ch0; Ch1; Ch2]
  ∧ Forall (λ st, st_index st = int_add (int_mul (i_y_max g) y) x
                  ∧ ∃ d, 0 ≤ d ≤ 15 ∧ st_value st = 17 * d)
      (update_rgb_buffer g n x y s).
Proof.
  destruct (update_rgb_buffer_stores g n x y s) as (v0 & v1 & v2 & Hv & ->).
  split; [done|].
  destruct (colors_nibbles n) as (d1 & d2 & d3 & H1 & H2 & H3 & Hc).
  rewrite Hc in Hv.
  assert ((v0 = 17 * d1 ∨ v0 = 17 * d2 ∨ v0 = 17 * d3)
          ∧ (v1 = 17 * d1 ∨ v1 = 17 * d2 ∨ v1 = 17 * d3)
          ∧ (v2 = 17 * d1 ∨ v2 = 17 * d2 ∨ v2 = 17 * d3)) as (V0 & V1 & V2).
  { unfold stored_permutation in Hv.
    repeat (destruct (_ =? _) in Hv); injection Hv as -> -> ->; auto. }
  repeat constructor; simpl.
  - destruct V0 as [->|[->| ->]]; eauto.
  - destruct V1 as [->|[->| ->]]; eauto.
  - destruct V2 as [->|[->| ->]]; eauto.
Qed.

(** X6. The colours tell the counts apart: for two counts between 1 and 4095,
    the range of the escape-time loop, the same scheme stores the same bytes
    only if the counts are equal. *)
Theorem update_rgb_buffer_injective (g : globals) (n m x y s : Z) :
  1 ≤ n ≤ 4095 → 1 ≤ m ≤ 4095 →
  update_rgb_buffer g n x y s = update_rgb_buffer g m x y s → n = m.
Proof.
  intros Hn Hm.
  destruct (update_rgb_buffer_stores g n x y s) as (v0 & v1 & v2 & Hv & ->).
  destruct (update_rgb_buffer_stores g m x y s) as (w0 & w1 & w2 & Hw & ->).
  intros [= -> -> ->]. rewrite Hv in Hw.
  by apply stored_permutation_inj, colors_inj in Hw.
Qed.

Lemma update_rgb_buffer_injective_witness :
  (update_rgb_buffer unit_image 4095 0 0 2 = update_rgb_buffer unit_image 4095 0 0 2)
  ∧ 4095 = 4095.
Proof.
  split; [reflexivity|].
  apply (update_rgb_buffer_injective unit_image 4095 4095 0 0 2);
    [lia | lia | reflexivity].
Defined.

(** Count 0, which the loop never returns, is the one count below 4095 that
    would be drawn like 4095: both are black. *)
Lemma update_rgb_buffer_zero_black (g : globals) (x y s : Z) :
  update_rgb_buffer g 0 x y s = update_rgb_buffer g 4095 x y s.
Proof.
  destruct (update_rgb_buffer_stores g 0 x y s) as (v0 & v1 & v2 & Hv & ->).
  destruct (update_rgb_buffer_stores g 4095 x y s) as (w0 & w1 & w2 & Hw & ->).
  change (colors 0) with (colors 4095) in Hv. rewrite <- Hw in Hv.
  by injection Hv as -> -> ->.
Qed.

(** X7. The six schemes are the six arrangements of the three colour values:
    what is stored is always a rearrangement of
    [(first_color, second_color, third_color)], and when the three values
    differ, two schemes in 0..5 store the same bytes only if they are the
    same scheme. *)
Theorem schemes_are_the_six_arrangements (g : globals) (n x y s s' : Z) :
  0 ≤ s ≤ 5 → 0 ≤ s' ≤ 5 →
  ∃ a b c,
    colors n = (a, b, c) ∧
    st_value <$> update_rgb_buffer g n x y s ≡ₚ [a; b; c] ∧
    (a ≠ b → b ≠ c → a ≠ c →
     update_rgb_buffer g n x y s = update_rgb_buffer g n x y s' → s = s').
Proof.
  intros Hs Hs'.
  destruct (update_rgb_buffer_stores g n x y s) as (v0 & v1 & v2 & Hv & ->).
  destruct (update_rgb_buffer_stores g n x y s') as (w0 & w1 & w2 & Hw & ->).
  destruct (colors n) as [[a b] c]. exists a, b, c. split; [done|].
  assert ((if decide (0 ≤ s ≤ 4) then s else 5) = s) as Es
    by (destruct (decide (0 ≤ s ≤ 4)); lia).
  assert ((if decide (0 ≤ s' ≤ 4) then s' else 5) = s') as Es'
    by (destruct (decide (0 ≤ s' ≤ 4)); lia).
  rewrite Es in Hv. rewrite Es' in Hw. clear Es Es'. split.
  - simpl. scheme_cases s; injection Hv as -> -> ->;
      eauto using Permutation_swap, perm_skip, Permutation_refl, perm_trans.
  - intros Hab Hbc Hac [= -> -> ->]. rewrite Hv in Hw.
    scheme_cases s; scheme_cases s'; try done;
      simpl in Hw; injection Hw; intros; congruence.
Qed.

Lemma schemes_are_the_six_arrangements_witness :
  ∃ a b c,
    colors 0x123 = (a, b, c) ∧
    st_value <$> update_rgb_buffer unit_image 0x123 0 0 0 ≡ₚ [a; b; c] ∧
    (a ≠ b → b ≠ c → a ≠ c →
     update_rgb_buffer unit_image 0x123 0 0 0 = update_rgb_buffer unit_image 0x123 0 0 3 →
     0 = 3).
Proof.
  apply (schemes_are_the_six_arrangements unit_image 0x123 0 0 0 3); lia.
Defined.

(** ** Runs without rows, without threads, with one thread *)



Lemma interleave_single {A} (t s : list A) : interleave [t] s ↔ s = t.
Proof.
  split.
  - intros H. remember [t] as ts eqn:Hts. revert t Hts.
    induction H as [ts Hnil|ts1 ts2 a t' s _ IH]; intros t Hts; subst.
    + by apply Forall_cons in Hnil as [-> _].
    + destruct ts1 as [|t1 ts1]; [|by destruct ts1].
      simplify_eq/=. f_equal. by apply IH.
  - intros ->. pose proof (interleave_concat [t]) as H.
    simpl in H. by rewrite app_nil_r in H.
Qed.

Lemma seq_main_after_init (sscanf_lf : string → option float)
    (sscanf_d : string → option Z) (fuel : nat) (argc : Z) (argv : list string)
    (g : globals) (tr : list store) :
  Seq.init sscanf_lf sscanf_d argc argv = ([], Return g) →
  Seq.compute_mandelbrot fuel g = Some tr →
  Seq.main sscanf_lf sscanf_d fuel argc argv
  = ((allocate_image_buffer g).1 ++ (EvStore <$> tr), Return 0).
Proof.
  intros Hi Hc. unfold Seq.main. rewrite Hi. simpl. rewrite Hc. simpl.
  by rewrite app_nil_r.
Qed.






(** X10. With one thread the pthread program is the sequential one: thread 1
    performs the stores of [compute_mandelbrot] in the same order, for every
    configuration, so the buffers the pthread program can leave are exactly
    the buffer the sequential program leaves. *)
Theorem single_thread_is_sequential (fuel : nat) (g : globals) (buf buf' : list pixel) :
  Pth.iterate_y fuel g 1 1 = Seq.compute_mandelbrot fuel g
  ∧ (Pth.run fuel g 1 buf buf' ↔ Seq.run fuel g buf = Some buf').
Proof.
  assert (Pth.iterate_y fuel g 1 1 = Seq.compute_mandelbrot fuel g) as Heq
    by reflexivity.
  assert (Pth.threads fuel g 1 = (λ tr, [tr]) <$> Seq.compute_mandelbrot fuel g)
    as Htrs.
  { unfold Pth.threads. change (Pth.thread_ids 1) with [1]. simpl.
    rewrite Heq. by destruct (Seq.compute_mandelbrot fuel g). }
  split; [done|]. unfold Seq.run. split.
  - intros [trs sched out Ht Hil Hex]. rewrite Htrs in Ht.
    destruct (Seq.compute_mandelbrot fuel g) as [tr|]; [|done].
    injection Ht as <-. apply interleave_single in Hil as ->. done.
  - intros Hrun. destruct (Seq.compute_mandelbrot fuel g) as [tr|] eqn:E; [|done].
    apply (Pth.run_schedule _ _ _ _ [tr] tr); [by rewrite Htrs| |done].
    by apply interleave_single.
Qed.

(** ** How much each thread does *)

Lemma length_bind_const {A B} (f : A → list B) (l : list A) (n : nat) :
  (∀ x, x ∈ l → length (f x) = n) → length (l ≫= f) = (length l * n)%nat.
Proof.
  induction l as [|x l IH]; intros H; [done|].
  rewrite bind_cons, length_app, (H x) by apply list_elem_of_here.
  rewrite IH by (intros y Hy; apply H; by apply list_elem_of_further).
  simpl. lia.
Qed.

Lemma length_stride (start bound step : Z) :
  1 ≤ step → start < bound + step →
  Z.of_nat (length (stride start bound step)) = (bound - start + step - 1) `div` step.
Proof.
  intros Hs Hb. unfold stride. rewrite length_fmap, length_seqZ.
  apply Z2Nat.id. apply Z.div_pos; lia.
Qed.

Lemma length_pixel_stores (g : globals) (i_y i_x : Z) :
  length (pixel_stores g i_y i_x) = 3%nat.
Proof.
  unfold pixel_stores.
  by destruct (update_rgb_buffer_stores g
                 (iteration_count (column_c_x g i_x) (row_c_y g i_y))
                 i_x i_y (GLOBAL_SCHEME g)) as (v0 & v1 & v2 & _ & ->).
Qed.

Lemma length_row_stores (g : globals) (i_y : Z) :
  0 ≤ i_x_max g → Z.of_nat (length (row_stores g i_y)) = 3 * i_x_max g.
Proof.
  intros H. unfold row_stores.
  rewrite (length_bind_const _ _ 3) by (intros; apply length_pixel_stores).
  rewrite length_seqZ. lia.
Qed.

Lemma length_rows_stores (g : globals) (rs : list Z) :
  0 ≤ i_x_max g →
  Z.of_nat (length (rs ≫= row_stores g)) = 3 * i_x_max g * Z.of_nat (length rs).
Proof.
  intros H.
  rewrite (length_bind_const _ _ (Z.to_nat (3 * i_x_max g))).
  - lia.
  - intros y _. apply Nat2Z.inj. rewrite length_row_stores by done. lia.
Qed.

(** X11. The rows are dealt out evenly: of an image of side [size], thread [t]
    of [T] goes through [(size - t + T) / T] rows, none at all when
    [t > size]; a thread never has more rows than one before it nor fewer
    than one less; and it performs three stores per pixel of its rows. *)
Theorem threads_rows_balanced (x_min x_max y_min y_max : float)
    (size scheme T t t' : Z) (fuel : nat) :
  0 ≤ size → 1 ≤ T → size + T ≤ INT_MAX + 1 →
  (Z.to_nat size < fuel)%nat →
  1 ≤ t ≤ t' → t' ≤ T →
  let g := configure x_min x_max y_min y_max size scheme in
  ∃ rows rows',
    Pth.iterate_y_rows fuel g T t = Some rows ∧
    Pth.iterate_y_rows fuel g T t' = Some rows' ∧
    Z.of_nat (length rows) = (size - t + T) `div` T ∧
    (length rows' ≤ length rows ≤ length rows' + 1)%nat ∧
    (size < t → rows = []) ∧
    ((4095 < fuel)%nat →
     ∃ tr, Pth.iterate_y fuel g T t = Some tr ∧
           Z.of_nat (length tr) = 3 * size * Z.of_nat (length rows)).
Proof.
  intros Hsize HT Hb Hfuel Ht Ht' g.
  exists (stride (t - 1) size T), (stride (t' - 1) size T).
  assert (Z.of_nat (length (stride (t - 1) size T)) = (size - t + T) `div` T) as Hl.
  { rewrite length_stride by lia. f_equal. lia. }
  assert (Z.of_nat (length (stride (t' - 1) size T)) = (size - t' + T) `div` T) as Hl'.
  { rewrite length_stride by lia. f_equal. lia. }
  split; [apply (iterate_y_rows_stride fuel g T t); simpl; lia|].
  split; [apply (iterate_y_rows_stride fuel g T t'); simpl; lia|].
  split; [done|]. split; [|split].
  - assert ((size - t' + T) `div` T ≤ (size - t + T) `div` T) as H1
      by (apply Z.div_le_mono; lia).
    assert ((size - t + T) `div` T ≤ (size - t' + T) `div` T + 1) as H2.
    { replace ((size - t' + T) `div` T + 1) with ((size - t' + T + 1 * T) `div` T)
        by (rewrite Z.div_add by lia; lia).
      apply Z.div_le_mono; lia. }
    lia.
  - intros Hgt. apply stride_nil; lia.
  - intros Hfuel'. exists (stride (t - 1) size T ≫= row_stores g). split.
    + apply (iterate_y_stores fuel g T t); simpl; unfold INT_MAX in *; lia.
    + by rewrite length_rows_stores.
Qed.

Lemma threads_rows_balanced_witness :
  let g := configure (-2.5) 1.5 (-2) 2 4 0 in
  ∃ rows rows',
    Pth.iterate_y_rows 4096 g 3 1 = Some rows ∧
    Pth.iterate_y_rows 4096 g 3 3 = Some rows' ∧
    Z.of_nat (length rows) = (4 - 1 + 3) `div` 3 ∧
    (length rows' ≤ length rows ≤ length rows' + 1)%nat ∧
    (4 < 1 → rows = []) ∧
    ((4095 < 4096)%nat →
     ∃ tr, Pth.iterate_y 4096 g 3 1 = Some tr ∧
           Z.of_nat (length tr) = 3 * 4 * Z.of_nat (length rows)).
Proof.
  apply (threads_rows_balanced (-2.5) 1.5 (-2) 2 4 0 3 1 3 4096);
    unfold INT_MAX; simpl; lia.
Defined.

(** ** The order of the stores and the picture they leave *)

Lemma bind_fmap_list {A B C} (f : A → B) (h : B → list C) (l : list A) :
  (f <$> l) ≫= h = l ≫= (λ x, h (f x)).
Proof.
  induction l as [|x l IH]; [done|].
  rewrite fmap_cons, !bind_cons. by f_equal.
Qed.

Lemma bind_singleton_fmap {A B} (f : A → B) (l : list A) :
  l ≫= (λ x, [f x]) = f <$> l.
Proof.
  induction l as [|x l IH]; [done|].
  rewrite fmap_cons, bind_cons. simpl. by f_equal.
Qed.

(** Going through a grid row by row is going through its indices in order. *)
Lemma grid_flatten {B} (h : Z → list B) (m n : Z) :
  0 ≤ m → 0 ≤ n →
  seqZ 0 n ≫= (λ y, seqZ 0 m ≫= (λ x, h (m * y + x))) = seqZ 0 (m * n) ≫= h.
Proof.
  intros Hm Hn. rewrite <- (Z2Nat.id n) by done.
  induction (Z.to_nat n) as [|k IH]; [by rewrite Z.mul_0_r|].
  rewrite seqZ_S, bind_app, IH. simpl.
  replace (m * Z.of_nat (S k)) with (m * Z.of_nat k + m) by lia.
  rewrite seqZ_app, bind_app by lia. f_equal.
  rewrite app_nil_r.
  replace (seqZ (0 + m * Z.of_nat k) m) with (Z.add (m * Z.of_nat k) <$> seqZ 0 m)
    by (rewrite fmap_add_seqZ; f_equal; try lia).
  rewrite bind_fmap_list. apply bind_ext_in. intros x _. reflexivity.
Qed.

Lemma image_buffer_size_configure (x_min x_max y_min y_max : float) (size scheme : Z) :
  0 ≤ size → size * size ≤ INT_MAX →
  image_buffer_size (configure x_min x_max y_min y_max size scheme) = size * size.
Proof. intros H0 Hsq. simpl. apply int_mul_id. unfold INT_MAX in *. nia. Qed.

(** X12. The sequential program fills the buffer front to back: its stores go to
    the bytes 0, 1, 2 of slot 0, then of slot 1, and so on up to the last of
    the [image_buffer_size] slots allocated, three stores per slot and none
    outside the buffer. *)
Theorem compute_mandelbrot_stores_in_order (x_min x_max y_min y_max : float)
    (size scheme : Z) (fuel : nat) :
  0 ≤ size → size * size ≤ INT_MAX →
  (4095 < fuel)%nat → (Z.to_nat size < fuel)%nat →
  let g := configure x_min x_max y_min y_max size scheme in
  ∃ tr, Seq.compute_mandelbrot fuel g = Some tr ∧
        target <$> tr
        = seqZ 0 (image_buffer_size g) ≫= (λ i, [(i, Ch0); (i, Ch1); (i, Ch2)]) ∧
        Z.of_nat (length tr) = 3 * image_buffer_size g.
Proof.
  intros Hsize Hsq Hfuel Hs g.
  assert (square_image g size) as Hg by (by apply square_image_configure).
  assert (size ≤ INT_MAX) as Hmax by (unfold INT_MAX in *; nia).
  exists (seqZ 0 size ≫= row_stores g).
  assert (image_buffer_size g = size * size) as ->
    by (by apply image_buffer_size_configure).
  split; [|split].
  - apply (compute_mandelbrot_stores fuel g); simpl; done.
  - rewrite (rows_stores_targets g size) by
      (try done; intros y Hy; apply elem_of_seqZ in Hy; lia).
    unfold row_targets.
    apply (grid_flatten (λ i, [(i, Ch0); (i, Ch1); (i, Ch2)]) size size); done.
  - rewrite length_rows_stores, length_seqZ by (simpl; lia). simpl. lia.
Qed.

Lemma compute_mandelbrot_stores_in_order_witness :
  let g := configure (-2.5) 1.5 (-2) 2 4 0 in
  ∃ tr, Seq.compute_mandelbrot 4096 g = Some tr ∧
        target <$> tr
        = seqZ 0 (image_buffer_size g) ≫= (λ i, [(i, Ch0); (i, Ch1); (i, Ch2)]) ∧
        Z.of_nat (length tr) = 3 * image_buffer_size g.
Proof.
  apply (compute_mandelbrot_stores_in_order (-2.5) 1.5 (-2) 2 4 0 4096);
    unfold INT_MAX; simpl; lia.
Defined.

Lemma grid_index (size x y : Z) :
  0 ≤ x < size →
  (size * y + x) `div` size = y ∧ (size * y + x) `mod` size = x.
Proof.
  intros Hx. split.
  - symmetry. apply (Z.div_unique _ _ y x); lia.
  - symmetry. apply (Z.mod_unique _ _ y x); lia.
Qed.

(** The picture, slot by slot: slot [i] holds the pixel of column
    [i mod size] in row [i / size]. *)
Lemma image_closed (g : globals) (size : Z) :
  square_image g size →
  image g = (λ i, pixel_color g (i `div` size) (i `mod` size)) <$> seqZ 0 (size * size).
Proof.
  intros (Hx & Hy & H0 & _). unfold image. rewrite Hx, Hy.
  rewrite <- bind_singleton_fmap.
  rewrite <- (grid_flatten
               (λ i, [pixel_color g (i `div` size) (i `mod` size)]) size size)
    by done.
  apply bind_ext_in. intros y _. rewrite <- bind_singleton_fmap.
  apply bind_ext_in. intros x Hx'. apply elem_of_seqZ in Hx'.
  destruct (grid_index size x y) as [-> ->]; [lia|done].
Qed.

Lemma length_image (g : globals) (size : Z) :
  square_image g size → Z.of_nat (length (image g)) = size * size.
Proof.
  intros Hg. rewrite (image_closed g size Hg), length_fmap, length_seqZ.
  destruct Hg as (_ & _ & H0 & _). nia.
Qed.

Lemma sequential_stores_leave_image (g : globals) (size : Z) (buf out : list pixel) :
  square_image g size → Z.of_nat (length buf) = size * size →
  exec (seqZ 0 size ≫= row_stores g) buf = Some out → out = image g.
Proof.
  intros Hg Hlen Hout.
  pose proof (exec_length _ _ _ Hout) as Hlo.
  pose proof (length_image g size Hg) as Hli.
  apply list_eq. intros i.
  destruct (decide (Z.of_nat i < size * size)) as [Hi|Hi].
  - assert (0 < size) as Hpos by (destruct Hg as (_ & _ & ? & _); nia).
    pose proof (Z.mod_pos_bound (Z.of_nat i) size Hpos) as Hm.
    pose proof (Z.div_mod (Z.of_nat i) size ltac:(lia)) as Hd.
    assert (0 ≤ Z.of_nat i `div` size < size) as Hq.
    { split; [apply Z.div_pos; lia|]. apply Z.div_lt_upper_bound; lia. }
    destruct (exec_rows_slot g size (seqZ 0 size) buf
                (Z.of_nat i `div` size) (Z.of_nat i `mod` size))
      as (out' & Hout' & Hslot); try done.
    + apply NoDup_seqZ.
    + intros y Hy. apply elem_of_seqZ in Hy. lia.
    + apply elem_of_seqZ. lia.
    + rewrite Hout in Hout'. injection Hout' as <-.
      rewrite <- Hd, Nat2Z.id in Hslot. etrans; [exact Hslot|]. symmetry.
      rewrite (image_closed g size Hg), list_lookup_fmap.
      rewrite (proj2 (lookup_seqZ 0 (size * size) i (Z.of_nat i))) by lia.
      reflexivity.
  - rewrite !lookup_ge_None_2; [done|lia|lia].
Qed.

Lemma pixel_color_bytes (g : globals) (i_y i_x : Z) (k : channel) :
  ∃ d, 0 ≤ d ≤ 15 ∧ get_channel k (pixel_color g i_y i_x) = 17 * d.
Proof.
  unfold pixel_color.
  destruct (colors_nibbles (iteration_count (column_c_x g i_x) (row_c_y g i_y)))
    as (d1 & d2 & d3 & H1 & H2 & H3 & ->).
  unfold stored_permutation.
  repeat (destruct (_ =? _)); destruct k; simpl; eauto.
Qed.

Lemma sequential_stores_image_run (x_min x_max y_min y_max : float)
    (size scheme : Z) (buf : list pixel) (fuel : nat) :
  0 < size → size * size ≤ INT_MAX →
  Z.of_nat (length buf) = size * size →
  (4095 < fuel)%nat → (Z.to_nat size < fuel)%nat →
  Seq.run fuel (configure x_min x_max y_min y_max size scheme) buf
  = Some (image (configure x_min x_max y_min y_max size scheme)).
Proof.
  intros Hsize Hsq Hlen Hfuel Hs.
  set (g := configure x_min x_max y_min y_max size scheme).
  assert (square_image g size) as Hg by (apply square_image_configure; lia).
  destruct (sequential_run_is_Some fuel g size buf) as (out & Hrun & Hout);
    try done.
  rewrite Hrun. f_equal. by apply (sequential_stores_leave_image g size buf).
Qed.

Lemma pixel_color_byte_range (g : globals) (i_y i_x : Z) (k : channel) :
  0 ≤ get_channel k (pixel_color g i_y i_x) ≤ 255.
Proof. destruct (pixel_color_bytes g i_y i_x k) as (d & Hd & ->). lia. Qed.

(** X13. A run leaves the picture and nothing else: whatever the freshly
    allocated buffer held, the sequential program leaves in slot
    [size * i_y + i_x] the colour of pixel [(i_x, i_y)], for all pixels, and so
    does the pthread program with any number of threads under any schedule.
    Every byte left is 17 times a nibble. *)
Theorem run_leaves_image (x_min x_max y_min y_max : float)
    (size scheme : Z) (buf : list pixel) (fuel : nat) :
  0 < size → size * size ≤ INT_MAX →
  Z.of_nat (length buf) = size * size →
  (4095 < fuel)%nat → (Z.to_nat size < fuel)%nat →
  let g := configure x_min x_max y_min y_max size scheme in
  Seq.run fuel g buf = Some (image g)
  ∧ (∀ T buf', 1 ≤ T → size + T ≤ INT_MAX + 1 →
       Pth.run fuel g T buf buf' → buf' = image g)
  ∧ (∀ i_x i_y, 0 ≤ i_x < size → 0 ≤ i_y < size →
       image g !! Z.to_nat (size * i_y + i_x) = Some (pixel_color g i_y i_x))
  ∧ Forall (λ p, ∀ k, ∃ d, 0 ≤ d ≤ 15 ∧ get_channel k p = 17 * d) (image g).
Proof.
  intros Hsize Hsq Hlen Hfuel Hs g.
  assert (square_image g size) as Hg by (apply square_image_configure; lia).
  split; [|split; [|split]].
  - by apply sequential_stores_image_run.
  - intros T buf' HT Hb Hrun.
    apply (pthread_run_sequential fuel g size T) in Hrun; try done.
    by apply (sequential_stores_leave_image g size buf).
  - intros i_x i_y Hix Hiy.
    rewrite (image_closed g size Hg), list_lookup_fmap.
    rewrite (proj2 (lookup_seqZ 0 (size * size) _ (size * i_y + i_x))) by nia.
    simpl. by destruct (grid_index size i_x i_y) as [-> ->].
  - rewrite (image_closed g size Hg). apply Forall_fmap, Forall_forall.
    intros i _ k. apply pixel_color_bytes.
Qed.

Lemma run_leaves_image_witness :
  let g := configure (-2.5) 1.5 (-2) 2 4 0 in
  Seq.run 4096 g small_buffer = Some (image g)
  ∧ (∀ T buf', 1 ≤ T → 4 + T ≤ INT_MAX + 1 →
       Pth.run 4096 g T small_buffer buf' → buf' = image g)
  ∧ (∀ i_x i_y, 0 ≤ i_x < 4 → 0 ≤ i_y < 4 →
       image g !! Z.to_nat (4 * i_y + i_x) = Some (pixel_color g i_y i_x))
  ∧ Forall (λ p, ∀ k, ∃ d, 0 ≤ d ≤ 15 ∧ get_channel k p = 17 * d) (image g).
Proof.
  apply (run_leaves_image (-2.5) 1.5 (-2) 2 4 0 small_buffer 4096);
    unfold INT_MAX; simpl; lia.
Defined.

(** ** The image file *)

Lemma fwrite_slots_body (buf : list pixel) :
  seqZ 0 (Z.of_nat (length buf)) ≫= (λ i, default [] (fwrite_slot buf i))
  = write_to_file_body buf.
Proof.
  unfold write_to_file_body.
  induction buf as [|p buf IH] using rev_ind; [done|].
  rewrite length_app, Nat.add_1_r, seqZ_S, !bind_app. f_equal.
  - rewrite <- IH. apply bind_ext_in. intros i Hi. apply elem_of_seqZ in Hi.
    unfold fwrite_slot. by rewrite lookup_app_l by lia.
  - simpl. unfold fwrite_slot. rewrite Z.add_0_l, Nat2Z.id.
    rewrite lookup_app_r, Nat.sub_diag by lia. done.
Qed.

Lemma length_write_to_file_body (buf : list pixel) :
  length (write_to_file_body buf) = (3 * length buf)%nat.
Proof.
  unfold write_to_file_body.
  rewrite (length_bind_const _ _ 3) by done. lia.
Qed.

Lemma lookup_write_to_file_body (buf : list pixel) (i : nat) (p : pixel) :
  buf !! i = Some p →
  write_to_file_body buf !! (3 * i)%nat = Some (get_channel Ch0 p) ∧
  write_to_file_body buf !! (3 * i + 1)%nat = Some (get_channel Ch1 p) ∧
  write_to_file_body buf !! (3 * i + 2)%nat = Some (get_channel Ch2 p).
Proof.
  revert i. induction buf as [|q buf IH]; intros i Hi; [done|].
  destruct i as [|i].
  - injection Hi as ->. done.
  - specialize (IH i Hi).
    replace (3 * S i)%nat with (S (S (S (3 * i)))) by lia.
    exact IH.
Qed.

Lemma write_to_file_value (fuel : nat) (g : globals) (buf : list pixel) :
  image_buffer_size g = Z.of_nat (length buf) →
  Z.of_nat (length buf) ≤ INT_MAX → (length buf < fuel)%nat →
  write_to_file fuel g buf
  = Some ("P6" +:+ nl +:+ " # " +:+ nl
               +:+ " " +:+ print_d (i_x_max g) +:+ nl
               +:+ " " +:+ print_d (i_y_max g) +:+ nl
               +:+ " 255" +:+ nl,
          write_to_file_body buf).
Proof.
  intros Hsize Hmax Hfuel. unfold write_to_file. rewrite Hsize.
  rewrite (for_lt_rows fuel 0 _ _ (fwrite_slot buf)
             (λ i, default [] (fwrite_slot buf i)) (seqZ 0 (Z.of_nat (length buf)))).
  - rewrite fwrite_slots_body. reflexivity.
  - rewrite <- stride_unit. apply for_lt_stride; lia.
  - intros i Hi. apply elem_of_seqZ in Hi. unfold fwrite_slot.
    destruct (lookup_lt_is_Some_2 buf (Z.to_nat i)) as [p ->]; [lia|done].
Qed.

(** X14. [write_to_file], called on a buffer of [image_buffer_size] slots, writes
    the header [P6], [# ], the two sides of the image and 255, each on its
    line, and then three bytes per slot in slot order: the bytes [3 i],
    [3 i + 1], [3 i + 2] of the body are the bytes 0, 1, 2 of slot [i]. *)
Theorem write_to_file_layout (fuel : nat) (g : globals) (buf : list pixel) :
  image_buffer_size g = Z.of_nat (length buf) →
  Z.of_nat (length buf) ≤ INT_MAX → (length buf < fuel)%nat →
  ∃ body,
    write_to_file fuel g buf
    = Some ("P6" +:+ nl +:+ " # " +:+ nl
                 +:+ " " +:+ print_d (i_x_max g) +:+ nl
                 +:+ " " +:+ print_d (i_y_max g) +:+ nl
                 +:+ " 255" +:+ nl,
            body) ∧
    length body = (3 * length buf)%nat ∧
    ∀ i p, buf !! i = Some p →
      body !! (3 * i)%nat = Some (get_channel Ch0 p) ∧
      body !! (3 * i + 1)%nat = Some (get_channel Ch1 p) ∧
      body !! (3 * i + 2)%nat = Some (get_channel Ch2 p).
Proof.
  intros Hsize Hmax Hfuel. exists (write_to_file_body buf).
  split; [by apply write_to_file_value|].
  split; [apply length_write_to_file_body|].
  apply lookup_write_to_file_body.
Qed.

Lemma write_to_file_layout_witness :
  ∃ body,
    write_to_file 17 small_image small_buffer
    = Some ("P6" +:+ nl +:+ " # " +:+ nl
                 +:+ " " +:+ print_d (i_x_max small_image) +:+ nl
                 +:+ " " +:+ print_d (i_y_max small_image) +:+ nl
                 +:+ " 255" +:+ nl,
            body) ∧
    length body = (3 * length small_buffer)%nat ∧
    ∀ i p, small_buffer !! i = Some p →
      body !! (3 * i)%nat = Some (get_channel Ch0 p) ∧
      body !! (3 * i + 1)%nat = Some (get_channel Ch1 p) ∧
      body !! (3 * i + 2)%nat = Some (get_channel Ch2 p).
Proof.
  apply (write_to_file_layout 17 small_image small_buffer);
    [reflexivity | unfold INT_MAX; simpl; lia | simpl; lia].
Defined.

(** X15. Written after a run, the file is a well-formed picture of the run: its
    header gives the side of the image twice and 255 as the largest value, and
    its body has [3 * size * size] bytes, none above 255, which are the bytes
    of the picture in slot order. *)
Theorem written_file_is_the_picture (x_min x_max y_min y_max : float)
    (size scheme : Z) (buf out : list pixel) (fuel : nat) :
  0 < size → size * size ≤ INT_MAX →
  Z.of_nat (length buf) = size * size →
  (4095 < fuel)%nat → (Z.to_nat (size * size) < fuel)%nat →
  let g := configure x_min x_max y_min y_max size scheme in
  Seq.run fuel g buf = Some out →
  write_to_file fuel g out
  = Some ("P6" +:+ nl +:+ " # " +:+ nl
               +:+ " " +:+ print_d size +:+ nl
               +:+ " " +:+ print_d size +:+ nl
               +:+ " 255" +:+ nl,
          write_to_file_body (image g))
  ∧ Z.of_nat (length (write_to_file_body (image g))) = 3 * size * size
  ∧ Forall (λ b, 0 ≤ b ≤ 255) (write_to_file_body (image g)).
Proof.
  intros Hsize Hsq Hlen Hfuel Hs g Hrun.
  assert (square_image g size) as Hg by (apply square_image_configure; lia).
  assert (out = image g) as ->.
  { destruct (sequential_run_is_Some fuel g size buf) as (out' & Hrun' & Hout);
      try done; [nia|].
    rewrite Hrun in Hrun'. injection Hrun' as ->.
    by apply (sequential_stores_leave_image g size buf). }
  pose proof (length_image g size Hg) as Hli.
  split; [|split].
  - apply (write_to_file_value fuel g (image g)).
    + rewrite Hli. apply image_buffer_size_configure; lia.
    + lia.
    + lia.
  - rewrite length_write_to_file_body. lia.
  - unfold write_to_file_body. apply Forall_bind.
    rewrite (image_closed g size Hg). apply Forall_fmap, Forall_forall.
    intros i _. simpl.
    rewrite !Forall_cons, Forall_nil.
    repeat split; apply pixel_color_byte_range.
Qed.

Lemma written_file_is_the_picture_witness :
  let g := configure (-2.5) 1.5 (-2) 2 4 0 in
  write_to_file 4096 g (image g)
  = Some ("P6" +:+ nl +:+ " # " +:+ nl
               +:+ " " +:+ print_d 4 +:+ nl
               +:+ " " +:+ print_d 4 +:+ nl
               +:+ " 255" +:+ nl,
          write_to_file_body (image g))
  ∧ Z.of_nat (length (write_to_file_body (image g))) = 3 * 4 * 4
  ∧ Forall (λ b, 0 ≤ b ≤ 255) (write_to_file_body (image g)).
Proof.
  apply (written_file_is_the_picture (-2.5) 1.5 (-2) 2 4 0 small_buffer
           (image (configure (-2.5) 1.5 (-2) 2 4 0)) 4096);
    try (unfold INT_MAX; simpl; lia).
  apply (sequential_stores_image_run (-2.5) 1.5 (-2) 2 4 0 small_buffer 4096);
    unfold INT_MAX; simpl; lia.
Defined.

(** ** The largest image *)

Lemma wrap_range (z : Z) : -2147483648 ≤ wrap z ≤ INT_MAX.
Proof.
  unfold wrap, INT_MAX.
  pose proof (Z.mod_pos_bound (z + 2147483648) 4294967296). lia.
Qed.

(** X16. [init] counts the slots of the buffer as [image_size * image_size] in an
    [int]: the count is right up to a side of 46340, and for every larger
    side it is smaller than the number of pixels, so that the buffer
    [allocate_image_buffer] makes does not hold the image. *)
Theorem image_buffer_size_exact (x_min x_max y_min y_max : float) (size scheme : Z) :
  0 ≤ size ≤ INT_MAX →
  let g := configure x_min x_max y_min y_max size scheme in
  (image_buffer_size g = size * size ↔ size ≤ 46340)
  ∧ (46340 < size → image_buffer_size g < size * size).
Proof.
  intros Hsize g.
  pose proof (wrap_range (size * size)) as Hw.
  change (image_buffer_size g) with (wrap (size * size)).
  unfold INT_MAX in *. split; [split|].
  - intros Heq. rewrite Heq in Hw. nia.
  - intros Hle. apply wrap_id. unfold INT_MAX. nia.
  - intros Hgt. nia.
Qed.

Lemma image_buffer_size_exact_witness :
  let g := configure (-2.5) 1.5 (-2) 2 46341 0 in
  (image_buffer_size g = 46341 * 46341 ↔ 46341 ≤ 46340)
  ∧ (46340 < 46341 → image_buffer_size g < 46341 * 46341).
Proof.
  apply (image_buffer_size_exact (-2.5) 1.5 (-2) 2 46341 0).
  unfold INT_MAX. lia.
Defined.

(** ** Points that escape at once *)

Lemma zero_add_square (c : float) : ((0 + c) * (0 + c))%float = (c * c)%float.
Proof.
  assert (Prim2SF (0 + c) = Prim2SF c ∨ c = (-0)%float) as [H|H].
  { rewrite add_spec. change (Prim2SF 0) with (S754_zero false).
    unfold SF64add, SFadd.
    destruct (Prim2SF c) as [[|]|s| |s m e] eqn:E; auto.
    right. apply Prim2SF_inj. by rewrite E. }
  - apply Prim2SF_inj in H. by rewrite H.
  - rewrite H. reflexivity.
Qed.

Lemma spec_orbit_first (c_x c_y : float) :
  norm_squared (spec_orbit c_x c_y 1) = (c_x * c_x + c_y * c_y)%float.
Proof.
  unfold spec_orbit, norm_squared. simpl.
  change (0 - 0)%float with 0%float. change (2 * 0 * 0)%float with 0%float.
  by rewrite !zero_add_square.
Qed.

(** X17. The first iteration puts [z] at [c], so the points that the loop leaves
    with the count 1 are exactly those with [c_x * c_x + c_y * c_y < 4] false
    in double arithmetic: the points on or outside the circle of radius 2, and
    those with a coordinate that is not a number. All other points get a
    count of at least 2. *)
Theorem escape_time_one (c_x c_y : float) (fuel : nat) :
  (4095 < fuel)%nat →
  (escape_time fuel c_x c_y = Some 1 ↔ (c_x * c_x + c_y * c_y <? 4)%float = false)
  ∧ ((c_x * c_x + c_y * c_y <? 4)%float = true →
     ∃ n, escape_time fuel c_x c_y = Some n ∧ 2 ≤ n ≤ iteration_max).
Proof.
  intros Hfuel.
  destruct (escape_time_spec c_x c_y fuel Hfuel) as (n & Hn & Hle & Hin & Hout).
  pose proof (escape_time_range fuel c_x c_y _ Hn) as Hr.
  assert (inside (spec_orbit c_x c_y 1) = (c_x * c_x + c_y * c_y <? 4)%float) as H1
    by (unfold inside; by rewrite spec_orbit_first).
  rewrite <- H1. split; [split|].
  - rewrite Hn. intros [= Heq]. assert (n = 1%nat) as -> by lia.
    apply Hout. lia.
  - intros Hf. rewrite Hn. f_equal.
    assert (n = 1%nat) as ->; [|done].
    destruct (decide (1 < n)%nat) as [Hlt|]; [|lia].
    rewrite (Hin 1%nat Hlt) in Hf. discriminate Hf.
  - intros Ht. exists (Z.of_nat n). split; [done|].
    split; [|lia]. destruct (decide (n = 1%nat)) as [->|]; [|lia].
    rewrite Hout in Ht by lia. discriminate Ht.
Qed.

Lemma escape_time_one_witness :
  (escape_time 4096 2 2 = Some 1 ↔ (2 * 2 + 2 * 2 <? 4)%float = false)
  ∧ ((2 * 2 + 2 * 2 <? 4)%float = true →
     ∃ n, escape_time 4096 2 2 = Some n ∧ 2 ≤ n ≤ iteration_max).
Proof. apply (escape_time_one 2 2 4096). lia. Defined.

(** ** Whole runs *)

(** X18. A run of the sequential program on an image size that scans to
    [0 < size <= 46340] prints nothing and returns 0: [main] allocates the
    array of [size * size] pointers and one 3-byte array per slot, then
    performs [3 * size * size] stores, all after the allocations, which turn
    any buffer of that size into the picture. *)
Theorem seq_main_completes (sscanf_lf : string → option float)
    (sscanf_d : string → option Z) (fuel : nat)
    (a0 a1 a2 a3 a4 a5 : string) (rest : list string) (size : Z) :
  sscanf_d a5 = Some size → 0 < size → size * size ≤ INT_MAX →
  (4095 < fuel)%nat → (Z.to_nat size < fuel)%nat →
  let argv := a0 :: a1 :: a2 :: a3 :: a4 :: a5 :: rest in
  ∃ g tr,
    Seq.init sscanf_lf sscanf_d (Z.of_nat (length argv)) argv = ([], Return g) ∧
    image_size g = size ∧
    Seq.main sscanf_lf sscanf_d fuel (Z.of_nat (length argv)) argv
    = (EvMalloc (sizeof_pointer * (size * size))
         :: replicate (Z.to_nat (size * size)) (EvMalloc 3) ++ (EvStore <$> tr),
       Return 0) ∧
    Z.of_nat (length tr) = 3 * size * size ∧
    ∀ buf, Z.of_nat (length buf) = size * size → exec tr buf = Some (image g).
Proof.
  intros Ha5 Hsize Hsq Hfuel Hs argv. subst argv.
  pose proof (seq_init_value sscanf_lf sscanf_d a0 a1 a2 a3 a4 a5 rest) as Hinit.
  cbv zeta in Hinit. rewrite Ha5 in Hinit.
  change (default 0 (Some size)) with size in Hinit.
  set (g := configure _ _ _ _ size _) in Hinit.
  assert (square_image g size) as Hg by (apply square_image_configure; lia).
  assert (size ≤ INT_MAX) as Hmax by (unfold INT_MAX in *; nia).
  assert (Seq.compute_mandelbrot fuel g = Some (seqZ 0 size ≫= row_stores g)) as Hc
    by (apply (compute_mandelbrot_stores fuel g); simpl; done).
  exists g, (seqZ 0 size ≫= row_stores g).
  split; [exact Hinit|]. split; [done|]. split; [|split].
  - rewrite (seq_main_after_init _ _ _ _ _ _ _ Hinit Hc).
    unfold allocate_image_buffer.
    assert (image_buffer_size g = size * size) as ->
      by (apply image_buffer_size_configure; lia).
    done.
  - rewrite length_rows_stores, length_seqZ by (simpl; lia). simpl. lia.
  - intros buf Hlen.
    destruct (exec_is_Some (seqZ 0 size ≫= row_stores g) buf) as [out Hout].
    { apply (rows_stores_in_bounds g size); try done.
      intros y Hy. apply elem_of_seqZ in Hy. lia. }
    rewrite Hout. f_equal. by apply (sequential_stores_leave_image g size buf).
Qed.

Lemma seq_main_completes_witness :
  let argv := ["./mandelbrot_seq"; "-2.5"; "1.5"; "-2.0"; "2.0"; "4"] in
  ∃ g tr,
    Seq.init (λ _, None) (λ _, Some 4) (Z.of_nat (length argv)) argv
    = ([], Return g) ∧
    image_size g = 4 ∧
    Seq.main (λ _, None) (λ _, Some 4) 4096 (Z.of_nat (length argv)) argv
    = (EvMalloc (sizeof_pointer * (4 * 4))
         :: replicate (Z.to_nat (4 * 4)) (EvMalloc 3) ++ (EvStore <$> tr),
       Return 0) ∧
    Z.of_nat (length tr) = 3 * 4 * 4 ∧
    ∀ buf, Z.of_nat (length buf) = 4 * 4 → exec tr buf = Some (image g).
Proof.
  apply (seq_main_completes (λ _, None) (λ _, Some 4) 4096
           "./mandelbrot_seq" "-2.5" "1.5" "-2.0" "2.0" "4" [] 4);
    try reflexivity; unfold INT_MAX; simpl; lia.
Defined.


